(** * RealEstateListingEngine: the property listing engine of
    [realestateengine.py], embedded in Rocq.

    The development follows the source file top to bottom:
    - [Property] and the engine state ([PropertyListingEngine.__init__]);
    - the location key function [_hash_location];
    - [add_property], [delete_property], [search_by_location],
      [get_all_properties];
    - the in-place quicksort [_quick_sort_by_price] and
      [sort_properties_by_price];
    - the two boundary searches and [search_by_price_range].

    Conventions of the embedding.
    - Python integers (ids, list indices, hash values) are [Z].
    - Prices are numbers that the engine only ever compares with [<=] and
      [>=]; they are modelled as [Z].
    - Strings are [string]; a character is its code point below 256.
    - Python list objects are mutable and can be aliased, so they live in
      a store ([Heap]) and the engine holds references to them.  The two
      dictionaries are owned by the engine alone and are finite maps.
    - A computation that can raise [IndexError] or [KeyError], or whose
      loop is cut by the fuel of the model, returns a [Res]. *)

From Stdlib Require Import ZArith Lia List Ascii String Sorting.Permutation Sorting.Sorted.
From stdpp Require Import base option list gmap strings sorting.

Local Open Scope Z_scope.

(** ** Results of computations that may raise *)

Inductive Res (A : Type) : Type :=
| Ok (a : A)
| IndexError
| KeyError
| OutOfFuel.

Arguments Ok {A} a.
Arguments IndexError {A}.
Arguments KeyError {A}.
Arguments OutOfFuel {A}.

Global Instance Res_bind : MBind Res := fun A B (k : A → Res B) (m : Res A) =>
  match m with
  | Ok a => k a
  | IndexError => IndexError
  | KeyError => KeyError
  | OutOfFuel => OutOfFuel
  end.

(** ** class Property *)

Record Property : Type := mkProperty {
  id : Z;
  title : string;
  location : string;
  price : Z;
  property_type : string
}.

Global Instance Property_eq_dec : EqDecision Property.
Proof. solve_decision. Defined.

(** ** Python list indexing

    [items[i]] with [0 <= i < len] is the [i]-th element; with
    [-len <= i < 0] it is the element at [len + i]; any other index raises
    [IndexError]. *)

Definition py_len {A} (l : list A) : Z := Z.of_nat (length l).

Definition py_norm_index (n i : Z) : option nat :=
  if (0 <=? i) && (i <? n) then Some (Z.to_nat i)
  else if (- n <=? i) && (i <? 0) then Some (Z.to_nat (n + i))
  else None.

Definition py_get {A} (l : list A) (i : Z) : Res A :=
  match py_norm_index (py_len l) i with
  | Some k => match l !! k with Some x => Ok x | None => IndexError end
  | None => IndexError
  end.

Definition py_set {A} (l : list A) (i : Z) (x : A) : Res (list A) :=
  match py_norm_index (py_len l) i with
  | Some k => Ok (<[k := x]> l)
  | None => IndexError
  end.

(** [items[i], items[j] = items[j], items[i]]: the right-hand side is
    evaluated first, then [items[i]] and [items[j]] are assigned in that
    order. *)
Definition py_swap {A} (items : list A) (i j : Z) : Res (list A) :=
  xj ← py_get items j;
  xi ← py_get items i;
  items1 ← py_set items i xj;
  py_set items1 j xi.

(** [range(low, high)] *)
Definition py_range (low high : Z) : list Z :=
  map (fun k => low + Z.of_nat k) (seq 0 (Z.to_nat (high - low))).

(** [l[start:stop]] for [0 <= start] and [0 <= stop], the only case the
    engine uses. *)
Definition py_slice {A} (l : list A) (start stop : Z) : list A :=
  take (Z.to_nat stop - Z.to_nat start)%nat (drop (Z.to_nat start) l).

(** ** _hash_location *)

Definition ord (c : ascii) : Z := Z.of_N (N_of_ascii c).

(** [str.lower()] on one character: the upper-case letters below code
    point 256 are A-Z and the Latin-1 ranges 192-214 and 216-222; each is
    32 below its lower-case form. *)
Definition lower_char (c : ascii) : ascii :=
  let n := ord c in
  if ((65 <=? n) && (n <=? 90)) || ((192 <=? n) && (n <=? 214))
     || ((216 <=? n) && (n <=? 222))
  then ascii_of_N (Z.to_N (n + 32))
  else c.

Fixpoint lower (s : string) : string :=
  match s with
  | EmptyString => EmptyString
  | String c s' => String (lower_char c) (lower s')
  end.

(** [s.replace(" ", "")] *)
Fixpoint remove_spaces (s : string) : string :=
  match s with
  | EmptyString => EmptyString
  | String c s' =>
      if Ascii.eqb c " "%char then remove_spaces s'
      else String c (remove_spaces s')
  end.

Definition clean_location (location : string) : string :=
  remove_spaces (lower location).

Definition hash_step (hash_value : Z) (char : ascii) : Z :=
  Z.land (31 * hash_value + ord char) 0xFFFFFFFF.

Definition _hash_location (location : string) : Z :=
  fold_left hash_step (list_ascii_of_string (clean_location location)) 0.

(** ** The store of list objects

    A reference is the position of a list object in the store; a new
    object is allocated at the end, so it never aliases an older one.
    Objects are never freed.  Reading a reference that was never allocated
    has no counterpart in the source; it reads as the empty list and
    writing to it changes nothing. *)

Abbreviation Heap := (list (list Property)).

Definition deref (h : Heap) (r : nat) : list Property := default [] (h !! r).

Definition alloc (h : Heap) (l : list Property) : nat * Heap :=
  (length h, h ++ [l]).

(** [r.append(x)] *)
Definition heap_append (h : Heap) (r : nat) (x : Property) : Heap :=
  alter (fun l => l ++ [x]) r h.

(** [d[k]] on a dictionary, raising [KeyError] on a missing key *)
Definition dict_get {V} (d : gmap Z V) (k : Z) : Res V :=
  match d !! k with
  | Some v => Ok v
  | None => KeyError
  end.

(** ** class PropertyListingEngine *)

Record PropertyListingEngine : Type := mkEngine {
  heap : Heap;
  properties : nat;
  location_map : gmap Z nat;
  id_map : gmap Z Property;
  next_id : Z
}.

Definition set_heap (e : PropertyListingEngine) (h : Heap) : PropertyListingEngine :=
  {| heap := h; properties := properties e; location_map := location_map e;
     id_map := id_map e; next_id := next_id e |}.

(** [__init__], run in a store [h] *)
Definition __init__ (h : Heap) : PropertyListingEngine :=
  let '(r, h1) := alloc h [] in
  {| heap := h1; properties := r; location_map := ∅; id_map := ∅; next_id := 1 |}.

Definition add_property (e : PropertyListingEngine)
    (title location : string) (price : Z) (property_type : string)
  : Res (Z * PropertyListingEngine) :=
  let property_id := next_id e in
  let next_id1 := next_id e + 1 in
  let new_property := mkProperty property_id title location price property_type in
  let h1 := heap_append (heap e) (properties e) new_property in
  let location_key := _hash_location location in
  let '(location_map1, h2) :=
    if decide (location_map e !! location_key = None)
    then let '(r, h) := alloc h1 [] in (<[location_key := r]> (location_map e), h)
    else (location_map e, h1) in
  bucket ← dict_get location_map1 location_key;
  let h3 := heap_append h2 bucket new_property in
  let id_map1 := <[property_id := new_property]> (id_map e) in
  Ok (property_id,
      {| heap := h3; properties := properties e; location_map := location_map1;
         id_map := id_map1; next_id := next_id1 |}).

Definition keep_other (property_id : Z) (l : list Property) : list Property :=
  filter (fun prop => id prop ≠ property_id) l.

Definition delete_property (e : PropertyListingEngine) (property_id : Z)
  : Res (bool * PropertyListingEngine) :=
  if decide (id_map e !! property_id = None) then Ok (false, e)
  else
    deleted_property ← dict_get (id_map e) property_id;
    let id_map1 := delete property_id (id_map e) in
    let '(properties1, h1) :=
      alloc (heap e) (keep_other property_id (deref (heap e) (properties e))) in
    let location_key := _hash_location (location deleted_property) in
    match location_map e !! location_key with
    | Some bucket =>
        let '(bucket1, h2) := alloc h1 (keep_other property_id (deref h1 bucket)) in
        Ok (true,
            {| heap := h2; properties := properties1;
               location_map := <[location_key := bucket1]> (location_map e);
               id_map := id_map1; next_id := next_id e |})
    | None =>
        Ok (true,
            {| heap := h1; properties := properties1;
               location_map := location_map e;
               id_map := id_map1; next_id := next_id e |})
    end.

(** The result is the bucket itself (an alias), or a new empty list. *)
Definition search_by_location (e : PropertyListingEngine) (location : string)
  : nat * PropertyListingEngine :=
  let location_key := _hash_location location in
  match location_map e !! location_key with
  | Some bucket => (bucket, e)
  | None => let '(r, h) := alloc (heap e) [] in (r, set_heap e h)
  end.

(** The result is the primary list itself (an alias). *)
Definition get_all_properties (e : PropertyListingEngine) : nat := properties e.

(** The contents of the primary collection. *)
Definition list_all (e : PropertyListingEngine) : list Property :=
  deref (heap e) (get_all_properties e).

(** ** _quick_sort_by_price

    The function sorts the list object [items] in place and touches no
    other object; it is modelled on the contents of that object, and
    returns the contents after the call.  Its caller writes them back to
    the store. *)

(** The partitioning loop, [for current in range(low, high)]: the state
    is the list and [left_pointer]. *)
Fixpoint partition_loop (currents : list Z) (pivot_price : Z)
    (items : list Property) (left_pointer : Z) : Res (list Property * Z) :=
  match currents with
  | [] => Ok (items, left_pointer)
  | current :: rest =>
      x ← py_get items current;
      if price x <=? pivot_price then
        items1 ← py_swap items left_pointer current;
        partition_loop rest pivot_price items1 (left_pointer + 1)
      else partition_loop rest pivot_price items left_pointer
  end.

(** Everything between the base case and the two recursive calls: the
    list after the pivot is placed, and the pivot's resting index. *)
Definition partition (items : list Property) (low high : Z)
  : Res (list Property * Z) :=
  let mid_index := (low + high) / 2 in
  let pivot_index := mid_index in
  items1 ← py_swap items pivot_index high;
  pivot ← py_get items1 high;
  let pivot_price := price pivot in
  '(items2, left_pointer) ← partition_loop (py_range low high) pivot_price items1 low;
  items3 ← py_swap items2 left_pointer high;
  Ok (items3, left_pointer).

(** One unit of fuel is spent per level of recursion. *)
Fixpoint quick_sort_fuel (fuel : nat) (items : list Property) (low high : Z)
  : Res (list Property) :=
  if low >=? high then Ok items
  else
    match fuel with
    | O => OutOfFuel
    | S fuel' =>
        '(items3, left_pointer) ← partition items low high;
        items4 ← quick_sort_fuel fuel' items3 low (left_pointer - 1);
        quick_sort_fuel fuel' items4 (left_pointer + 1) high
    end.

(** The depth of the recursion on the range [low..high] is at most
    [high - low] (theorem [quick_sort_total]). *)
Definition _quick_sort_by_price (items : list Property) (low high : Z)
  : Res (list Property) :=
  quick_sort_fuel (Z.to_nat (high - low)) items low high.

(** ** sort_properties_by_price *)

Definition sort_properties_by_price (e : PropertyListingEngine) (ascending : bool)
  : Res (nat * PropertyListingEngine) :=
  if decide (deref (heap e) (properties e) = []) then
    let '(r, h) := alloc (heap e) [] in Ok (r, set_heap e h)
  else
    let '(result, h1) := alloc (heap e) (deref (heap e) (properties e)) in
    sorted ← _quick_sort_by_price (deref h1 result) 0 (py_len (deref h1 result) - 1);
    let h2 := <[result := sorted]> h1 in
    if negb ascending then
      let '(r, h3) := alloc h2 (rev (deref h2 result)) in Ok (r, set_heap e h3)
    else Ok (result, set_heap e h2).

(** ** The boundary searches

    Each [while left <= right] loop is a recursive function of the loop
    variables; one unit of fuel is spent per iteration. *)

Fixpoint min_price_loop (fuel : nat) (sorted_properties : list Property)
    (min_price left right result : Z) : Res Z :=
  if left <=? right then
    match fuel with
    | O => OutOfFuel
    | S fuel' =>
        let mid := (left + right) / 2 in
        x ← py_get sorted_properties mid;
        if price x >=? min_price
        then min_price_loop fuel' sorted_properties min_price left (mid - 1) mid
        else min_price_loop fuel' sorted_properties min_price (mid + 1) right result
    end
  else Ok result.

Definition _binary_search_min_price (sorted_properties : list Property)
    (min_price : Z) : Res Z :=
  min_price_loop (length sorted_properties) sorted_properties min_price
    0 (py_len sorted_properties - 1) (py_len sorted_properties).

Fixpoint max_price_loop (fuel : nat) (sorted_properties : list Property)
    (max_price left right result : Z) : Res Z :=
  if left <=? right then
    match fuel with
    | O => OutOfFuel
    | S fuel' =>
        let mid := (left + right) / 2 in
        x ← py_get sorted_properties mid;
        if price x <=? max_price
        then max_price_loop fuel' sorted_properties max_price (mid + 1) right mid
        else max_price_loop fuel' sorted_properties max_price left (mid - 1) result
    end
  else Ok result.

Definition _binary_search_max_price (sorted_properties : list Property)
    (max_price : Z) : Res Z :=
  max_price_loop (length sorted_properties) sorted_properties max_price
    0 (py_len sorted_properties - 1) (-1).

(** ** search_by_price_range *)

Definition search_by_price_range (e : PropertyListingEngine) (min_price max_price : Z)
  : Res (nat * PropertyListingEngine) :=
  '(sorted_properties, e1) ← sort_properties_by_price e true;
  let sorted := deref (heap e1) sorted_properties in
  start_idx ← _binary_search_min_price sorted min_price;
  end_idx ← _binary_search_max_price sorted max_price;
  if (start_idx <=? end_idx) && (start_idx <? py_len sorted) then
    let '(r, h) := alloc (heap e1) (py_slice sorted start_idx (end_idx + 1)) in
    Ok (r, set_heap e1 h)
  else
    let '(r, h) := alloc (heap e1) [] in Ok (r, set_heap e1 h).

(** ** The location key function as the specification words it

    The specification describes the normalisation as lower-casing and
    stripping all whitespace.  [spec_clean_location] follows those words,
    with the ASCII whitespace characters (tab, line feed, vertical tab,
    form feed, carriage return, space); it is compared with
    [clean_location] below. *)

Definition is_whitespace (c : ascii) : bool :=
  let n := ord c in ((9 <=? n) && (n <=? 13)) || (n =? 32).

Fixpoint strip_whitespace (s : string) : string :=
  match s with
  | EmptyString => EmptyString
  | String c s' =>
      if is_whitespace c then strip_whitespace s'
      else String c (strip_whitespace s')
  end.

Definition spec_clean_location (location : string) : string :=
  strip_whitespace (lower location).

(** [hash = (31*hash + code) mod 2^32], left to right, from 0 *)
Definition rolling_hash (text : string) : Z :=
  fold_left (fun hash c => (31 * hash + ord c) mod 2 ^ 32)
            (list_ascii_of_string text) 0.

Definition spec_hash_location (location : string) : Z :=
  rolling_hash (spec_clean_location location).

(** ** Ordering by price *)

Definition price_le (a b : Property) : Prop := price a <= price b.

(** Ascending by price: every record is at most as expensive as every
    later one. *)
Definition sorted_by_price (l : list Property) : Prop :=
  StronglySorted price_le l.

(** The two sides of a partition around the price [pv]. *)
Definition le_price (pv : Z) (x : Property) : Prop := price x <= pv.
Definition gt_price (pv : Z) (x : Property) : Prop := pv < price x.

(** ** What the boundary searches are to return *)

(** [r] is the smallest index of [l] whose record costs at least
    [min_price], or the length of [l] when there is no such index. *)
Definition is_lower_bound (l : list Property) (min_price r : Z) : Prop :=
  (r = py_len l ∧ ∀ x, x ∈ l → price x < min_price)
  ∨ (0 <= r < py_len l
     ∧ (∃ x, l !! Z.to_nat r = Some x ∧ min_price <= price x)
     ∧ ∀ (j : nat) y, Z.of_nat j < r → l !! j = Some y → price y < min_price).

(** [r] is the largest index of [l] whose record costs at most
    [max_price], or -1 when there is no such index. *)
Definition is_upper_bound (l : list Property) (max_price r : Z) : Prop :=
  (r = -1 ∧ ∀ x, x ∈ l → max_price < price x)
  ∨ (0 <= r < py_len l
     ∧ (∃ x, l !! Z.to_nat r = Some x ∧ price x <= max_price)
     ∧ ∀ (j : nat) y, r < Z.of_nat j → l !! j = Some y → max_price < price y).

(** The records a range query asks for. *)
Definition in_price_range (min_price max_price : Z) (x : Property) : Prop :=
  min_price <= price x <= max_price.

Global Instance in_price_range_dec (min_price max_price : Z) (x : Property) :
  Decision (in_price_range min_price max_price x).
Proof. unfold in_price_range. apply _. Defined.

(** Small test data: three listings in one city. *)
Definition sample_listings : list Property :=
  [ mkProperty 1 "Loft" "Austin" 100 "apartment";
    mkProperty 2 "Villa" "Austin" 250 "house";
    mkProperty 3 "Field" "Austin" 250 "plot" ].

(** ** Sequences of add and delete operations *)

Inductive op : Type :=
| Add (title location : string) (price : Z) (property_type : string)
| Delete (property_id : Z).

Inductive outcome : Type :=
| Added (property_id : Z)
| Deleted (found : bool).

Definition step (e : PropertyListingEngine) (o : op)
  : Res (outcome * PropertyListingEngine) :=
  match o with
  | Add title location price property_type =>
      '(property_id, e1) ← add_property e title location price property_type;
      Ok (Added property_id, e1)
  | Delete property_id =>
      '(found, e1) ← delete_property e property_id;
      Ok (Deleted found, e1)
  end.

(** The values returned by the operations, in order, and the final state. *)
Fixpoint run (ops : list op) (e : PropertyListingEngine)
  : Res (list outcome * PropertyListingEngine) :=
  match ops with
  | [] => Ok ([], e)
  | o :: ops' =>
      '(out, e1) ← step e o;
      '(outs, e2) ← run ops' e1;
      Ok (out :: outs, e2)
  end.

(** The ids returned by the adds of a run, in order. *)
Fixpoint added_ids (outs : list outcome) : list Z :=
  match outs with
  | [] => []
  | Added property_id :: outs' => property_id :: added_ids outs'
  | Deleted _ :: outs' => added_ids outs'
  end.

(** ** The three views *)

(** The contents of the bucket of a location key; a key that is not in
    the location map has no bucket, hence no records. *)
Definition bucket_of (e : PropertyListingEngine) (location_key : Z) : list Property :=
  match location_map e !! location_key with
  | Some bucket => deref (heap e) bucket
  | None => []
  end.

(** Invariant I1, with "exactly once" for the primary collection and for
    the buckets. *)
Record views_agree (e : PropertyListingEngine) : Prop := {
  primary_iff_id_view :
    ∀ p, p ∈ list_all e ↔ id_map e !! id p = Some p;
  primary_iff_own_bucket :
    ∀ p, p ∈ list_all e ↔ p ∈ bucket_of e (_hash_location (location p));
  only_own_bucket :
    ∀ k p, p ∈ bucket_of e k → k = _hash_location (location p);
  primary_once : NoDup (list_all e);
  bucket_once : ∀ k, NoDup (bucket_of e k);
  id_view_in_primary :
    ∀ i p, id_map e !! i = Some p → id p = i ∧ p ∈ list_all e
}.

(** What the store must satisfy for the views to stay in step: the
    references held by the engine are allocated and pairwise distinct,
    and the ids in use are below the counter. *)
Record store_ok (e : PropertyListingEngine) : Prop := {
  properties_allocated : (properties e < length (heap e))%nat;
  buckets_allocated :
    ∀ k r, location_map e !! k = Some r →
           (r < length (heap e))%nat ∧ r ≠ properties e;
  buckets_distinct :
    ∀ k1 k2 r, location_map e !! k1 = Some r → location_map e !! k2 = Some r → k1 = k2;
  ids_below_counter : ∀ p, p ∈ list_all e → id p < next_id e
}.

(** The scenario of the specification: two listings in Austin. *)
Definition austin_ops : list op :=
  [ Add "A" "Austin" 100000 "house"; Add "B" "austin" 250000 "condo" ].

Definition austin_engine : PropertyListingEngine :=
  match run austin_ops (__init__ []) with
  | Ok (_, e) => e
  | _ => __init__ []
  end.

(** ** Measures of the recursions *)

(** The fuel that [_quick_sort_by_price] gives to the range [low..high]. *)
Definition range_size (low high : Z) : nat := Z.to_nat (high - low).

(** The number of indices in the window [left..right] of a boundary
    search. *)
Definition window (left right : Z) : nat := Z.to_nat (right - left + 1).

(** ** Reachable states and what they satisfy *)

(** The six public operations of the engine, as a caller invokes them,
    and the values they return; a returned list is a reference into the
    store. *)
Inductive call : Type :=
| AddProperty (title location : string) (price : Z) (property_type : string)
| DeleteProperty (property_id : Z)
| SearchByLocation (location : string)
| SearchByPriceRange (min_price max_price : Z)
| SortPropertiesByPrice (ascending : bool)
| GetAllProperties.

Inductive value : Type :=
| IdValue (property_id : Z)
| BoolValue (found : bool)
| ListValue (r : nat).

Definition exec (e : PropertyListingEngine) (c : call)
  : Res (value * PropertyListingEngine) :=
  match c with
  | AddProperty title location price property_type =>
      '(property_id, e1) ← add_property e title location price property_type;
      Ok (IdValue property_id, e1)
  | DeleteProperty property_id =>
      '(found, e1) ← delete_property e property_id;
      Ok (BoolValue found, e1)
  | SearchByLocation location =>
      let '(r, e1) := search_by_location e location in Ok (ListValue r, e1)
  | SearchByPriceRange min_price max_price =>
      '(r, e1) ← search_by_price_range e min_price max_price;
      Ok (ListValue r, e1)
  | SortPropertiesByPrice ascending =>
      '(r, e1) ← sort_properties_by_price e ascending;
      Ok (ListValue r, e1)
  | GetAllProperties => Ok (ListValue (get_all_properties e), e)
  end.

Fixpoint session (calls : list call) (e : PropertyListingEngine)
  : Res (list value * PropertyListingEngine) :=
  match calls with
  | [] => Ok ([], e)
  | c :: calls' =>
      '(v, e1) ← exec e c;
      '(vs, e2) ← session calls' e1;
      Ok (v :: vs, e2)
  end.

(** A state that a new engine reaches by some sequence of calls. *)
Definition reachable (e : PropertyListingEngine) : Prop :=
  ∃ calls h vs, session calls (__init__ h) = Ok (vs, e).

(** The scenario of the specification, as calls. *)
Definition austin_calls : list call :=
  [ AddProperty "A" "Austin" 100000 "house";
    AddProperty "B" "austin" 250000 "condo" ].

(** The records whose location has the key [k]. *)
Definition same_key (k : Z) (p : Property) : Prop :=
  _hash_location (location p) = k.

Global Instance same_key_dec (k : Z) (p : Property) : Decision (same_key k p).
Proof. unfold same_key. apply _. Defined.

Record engine_ok (e : PropertyListingEngine) : Prop := {
  ok_views : views_agree e;
  ok_store : store_ok e;
  ok_buckets : ∀ k, bucket_of e k = filter (same_key k) (list_all e);
  ok_ids : StronglySorted Z.lt (map id (list_all e));
  ok_ids_positive : ∀ p, p ∈ list_all e → 1 <= id p;
  ok_counter_positive : 1 <= next_id e
}.

(** Descending by price. *)
Definition sorted_by_price_desc (l : list Property) : Prop :=
  StronglySorted (fun a b => price b <= price a) l.

(** The list objects the engine itself holds: the primary collection and
    the buckets. *)
Definition engine_owned (e : PropertyListingEngine) (r : nat) : Prop :=
  r = properties e ∨ ∃ k, location_map e !! k = Some r.

(** The calls that only read the catalogue. *)
Definition is_query (c : call) : bool :=
  match c with
  | AddProperty _ _ _ _ | DeleteProperty _ => false
  | _ => true
  end.

(** The queries that build their result in a list of their own. *)
Definition builds_result (c : call) : bool :=
  match c with
  | SearchByPriceRange _ _ | SortPropertiesByPrice _ => true
  | _ => false
  end.

(** The ids returned by the adds of a session, in order. *)
Fixpoint returned_ids (vs : list value) : list Z :=
  match vs with
  | [] => []
  | IdValue property_id :: vs' => property_id :: returned_ids vs'
  | _ :: vs' => returned_ids vs'
  end.

(* ===================================================================== *)
(** * Theorems *)
(* ===================================================================== *)

(** ** The location key function *)

Lemma hash_step_mod (h : Z) (c : ascii) :
  hash_step h c = (31 * h + ord c) mod 2 ^ 32.
Proof.
  unfold hash_step.
  change 0xFFFFFFFF with (Z.ones 32).
  apply Z.land_ones. lia.
Qed.

Lemma fold_hash_step_mod (cs : list ascii) (h : Z) :
  fold_left hash_step cs h
  = fold_left (fun hash c => (31 * hash + ord c) mod 2 ^ 32) cs h.
Proof.
  revert h. induction cs as [|c cs IH]; intros h; simpl; [reflexivity|].
  rewrite hash_step_mod. apply IH.
Qed.

Lemma hash_location_rolling (s : string) :
  _hash_location s = rolling_hash (clean_location s).
Proof. unfold _hash_location, rolling_hash. apply fold_hash_step_mod. Qed.

Lemma rolling_fold_range (cs : list ascii) (h : Z) :
  0 <= h < 2 ^ 32 →
  0 <= fold_left (fun hash c => (31 * hash + ord c) mod 2 ^ 32) cs h < 2 ^ 32.
Proof.
  revert h. induction cs as [|c cs IH]; intros h Hh; simpl; [exact Hh|].
  apply IH. apply Z.mod_pos_bound. lia.
Qed.

Lemma hash_location_range (s : string) : 0 <= _hash_location s < 2 ^ 32.
Proof.
  rewrite hash_location_rolling. unfold rolling_hash.
  apply rolling_fold_range. lia.
Qed.

Lemma search_by_location_key (e : PropertyListingEngine) (s1 s2 : string) :
  _hash_location s1 = _hash_location s2 →
  search_by_location e s1 = search_by_location e s2.
Proof. intros H. unfold search_by_location. rewrite H. reflexivity. Qed.

(** C4 (as amended).  The location key function lower-cases the string,
    removes every space character (U+0020) from it and folds the remaining
    character codes left to right as [hash = (31*hash + code) mod 2^32];
    the key is a 32-bit unsigned integer.  Consequently two raw strings
    with the same lower-cased, space-free text get the same key, and the
    engine looks them up in the same bucket. *)
Theorem hash_location_normalized (s1 s2 : string) :
  (_hash_location s1 = rolling_hash (remove_spaces (lower s1))
   ∧ 0 <= _hash_location s1 < 2 ^ 32)
  ∧ (remove_spaces (lower s1) = remove_spaces (lower s2) →
     _hash_location s1 = _hash_location s2
     ∧ ∀ e, search_by_location e s1 = search_by_location e s2).
Proof.
  split.
  - split; [apply hash_location_rolling | apply hash_location_range].
  - intros Heq.
    assert (Hk : _hash_location s1 = _hash_location s2).
    { rewrite !hash_location_rolling. unfold clean_location. now rewrite Heq. }
    split; [exact Hk|]. intros e. now apply search_by_location_key.
Qed.

(** "New York" and "new  york" have the same key. *)
Lemma hash_location_new_york :
  remove_spaces (lower "New York") = remove_spaces (lower "new  york")
  ∧ _hash_location "New York" = _hash_location "new  york"
  ∧ ∀ e, search_by_location e "New York" = search_by_location e "new  york".
Proof.
  assert (H : remove_spaces (lower "New York") = remove_spaces (lower "new  york"))
    by reflexivity.
  split; [exact H|].
  exact (proj2 (hash_location_normalized "New York" "new  york") H).
Defined.

(** C4 does not hold as first stated: a tab is whitespace, the two strings
    below have the same text once lower-cased and stripped of all
    whitespace, and yet their keys differ, since the code removes spaces
    only. *)
Lemma hash_location_keeps_tab :
  let s := String "a" (String "009" (String "b" EmptyString)) in
  spec_clean_location s = spec_clean_location "ab"
  ∧ _hash_location s ≠ _hash_location "ab"
  ∧ _hash_location s ≠ spec_hash_location s.
Proof. vm_compute. repeat split; discriminate. Qed.

(** ** Python list indexing on lists given by their parts *)

Lemma py_norm_index_nat (n k : nat) :
  (k < n)%nat → py_norm_index (Z.of_nat n) (Z.of_nat k) = Some k.
Proof.
  intros Hk. unfold py_norm_index.
  destruct (Z.leb_spec 0 (Z.of_nat k)); [|lia].
  destruct (Z.ltb_spec (Z.of_nat k) (Z.of_nat n)); [|lia].
  simpl. now rewrite Nat2Z.id.
Qed.

Lemma py_get_nat {A} (l : list A) (k : nat) (x : A) :
  l !! k = Some x → py_get l (Z.of_nat k) = Ok x.
Proof.
  intros Hx. unfold py_get, py_len.
  rewrite py_norm_index_nat by (eapply lookup_lt_Some; eauto).
  now rewrite Hx.
Qed.

Lemma py_set_nat {A} (l : list A) (k : nat) (y : A) :
  (k < length l)%nat → py_set l (Z.of_nat k) y = Ok (<[k := y]> l).
Proof.
  intros Hk. unfold py_set, py_len. now rewrite py_norm_index_nat.
Qed.

Lemma py_swap_nat {A} (l : list A) (i j : nat) (a b : A) :
  l !! i = Some a → l !! j = Some b →
  py_swap l (Z.of_nat i) (Z.of_nat j) = Ok (<[j := a]> (<[i := b]> l)).
Proof.
  intros Ha Hb. unfold py_swap.
  rewrite (py_get_nat l j b Hb). simpl.
  rewrite (py_get_nat l i a Ha). simpl.
  rewrite py_set_nat by (eapply lookup_lt_Some; eauto). simpl.
  rewrite py_set_nat; [reflexivity|].
  rewrite length_insert. eapply lookup_lt_Some; eauto.
Qed.

Lemma py_get_middle {A} (l1 l2 : list A) (x : A) (i : Z) :
  i = py_len l1 → py_get (l1 ++ x :: l2) i = Ok x.
Proof.
  intros ->. unfold py_len. apply py_get_nat. apply list_lookup_middle. reflexivity.
Qed.

Lemma py_swap_same {A} (l1 l2 : list A) (x : A) (i : Z) :
  i = py_len l1 → py_swap (l1 ++ x :: l2) i i = Ok (l1 ++ x :: l2).
Proof.
  intros ->. unfold py_len.
  assert (Hx : (l1 ++ x :: l2) !! length l1 = Some x)
    by (apply list_lookup_middle; reflexivity).
  rewrite (py_swap_nat _ _ _ x x Hx Hx).
  rewrite (list_insert_id _ _ _ Hx). now rewrite (list_insert_id _ _ _ Hx).
Qed.

Lemma insert_middle {A} (l1 l2 : list A) (x y : A) :
  <[length l1 := y]> (l1 ++ x :: l2) = l1 ++ y :: l2.
Proof.
  replace (length l1) with (length l1 + 0)%nat at 1 by lia.
  now rewrite insert_app_r.
Qed.

Lemma py_swap_apart {A} (l1 l2 l3 : list A) (a b : A) (i j : Z) :
  i = py_len l1 → j = py_len l1 + 1 + py_len l2 →
  py_swap (l1 ++ a :: l2 ++ b :: l3) i j = Ok (l1 ++ b :: l2 ++ a :: l3).
Proof.
  intros -> ->. unfold py_len.
  replace (Z.of_nat (length l1) + 1 + Z.of_nat (length l2))
    with (Z.of_nat (length (l1 ++ a :: l2)))
    by (rewrite length_app; simpl; lia).
  assert (Ha : (l1 ++ a :: l2 ++ b :: l3) !! length l1 = Some a)
    by (apply list_lookup_middle; reflexivity).
  assert (Hb : (l1 ++ a :: l2 ++ b :: l3) !! length (l1 ++ a :: l2) = Some b).
  { replace (l1 ++ a :: l2 ++ b :: l3) with ((l1 ++ a :: l2) ++ b :: l3)
      by (now rewrite <- app_assoc).
    apply list_lookup_middle. reflexivity. }
  rewrite (py_swap_nat _ _ _ a b Ha Hb). f_equal.
  rewrite insert_middle.
  replace (l1 ++ b :: l2 ++ b :: l3) with ((l1 ++ b :: l2) ++ b :: l3)
    by (now rewrite <- app_assoc).
  replace (length (l1 ++ a :: l2)) with (length (l1 ++ b :: l2))
    by (rewrite !length_app; reflexivity).
  rewrite insert_middle. now rewrite <- app_assoc.
Qed.

Lemma py_range_nil (low high : Z) : high <= low → py_range low high = [].
Proof.
  intros H. unfold py_range.
  replace (Z.to_nat (high - low)) with 0%nat by lia. reflexivity.
Qed.

Lemma py_range_cons (low high : Z) :
  low < high → py_range low high = low :: py_range (low + 1) high.
Proof.
  intros H. unfold py_range.
  replace (Z.to_nat (high - low)) with (S (Z.to_nat (high - (low + 1)))) by lia.
  simpl. f_equal; [lia|].
  rewrite <- seq_shift, map_map. apply map_ext. intros k. lia.
Qed.

(** ** The partitioning step

    The list is followed through the loop by its parts: the untouched
    prefix, the records found at most as expensive as the pivot, those
    found more expensive, the records still to scan, the pivot at [high]
    and the untouched suffix. *)

Lemma partition_loop_spec (pv : Z) (pre post : list Property) (p : Property) :
  ∀ (rest small large : list Property) (current left_pointer : Z),
    left_pointer = py_len pre + py_len small →
    current = left_pointer + py_len large →
    Forall (le_price pv) small → Forall (gt_price pv) large →
    ∃ small' large',
      partition_loop (py_range current (current + py_len rest)) pv
        (pre ++ small ++ large ++ rest ++ p :: post) left_pointer
      = Ok (pre ++ small' ++ large' ++ p :: post, py_len pre + py_len small')
      ∧ Forall (le_price pv) small' ∧ Forall (gt_price pv) large'
      ∧ Permutation (small ++ large ++ rest) (small' ++ large').
Proof.
  induction rest as [|x rest IH]; intros small large current lp Hlp Hc Hs Hl.
  - exists small, large. rewrite py_range_nil by (unfold py_len; simpl; lia).
    simpl. subst lp. rewrite app_nil_r. auto.
  - rewrite py_range_cons by (unfold py_len; simpl; lia).
    cbn [partition_loop].
    assert (Hget : py_get (pre ++ small ++ large ++ (x :: rest) ++ p :: post) current = Ok x).
    { replace (pre ++ small ++ large ++ (x :: rest) ++ p :: post)
        with ((pre ++ small ++ large) ++ x :: rest ++ p :: post)
        by (now rewrite <- !app_assoc).
      apply py_get_middle. unfold py_len in *. rewrite !length_app. lia. }
    rewrite Hget. cbn [mbind Res_bind].
    replace (current + py_len (x :: rest)) with (current + 1 + py_len rest)
      by (unfold py_len; simpl; lia).
    destruct (Z.leb_spec (price x) pv) as [Hx|Hx].
    + (* the record joins the small ones *)
      destruct large as [|b large].
      * assert (current = lp) as -> by (unfold py_len in Hc; simpl in Hc; lia).
        assert (Hsw : py_swap (pre ++ small ++ [] ++ (x :: rest) ++ p :: post) lp lp
                      = Ok (pre ++ (small ++ [x]) ++ [] ++ rest ++ p :: post)).
        { replace (pre ++ small ++ [] ++ (x :: rest) ++ p :: post)
            with ((pre ++ small) ++ x :: rest ++ p :: post)
            by (now rewrite <- !app_assoc).
          replace (pre ++ (small ++ [x]) ++ [] ++ rest ++ p :: post)
            with ((pre ++ small) ++ x :: rest ++ p :: post)
            by (now rewrite <- !app_assoc).
          apply py_swap_same. unfold py_len in *. rewrite length_app. lia. }
        rewrite Hsw. cbn [mbind Res_bind].
        destruct (IH (small ++ [x]) [] (lp + 1) (lp + 1)) as (s' & l' & He & Hs' & Hl' & Hp).
        -- unfold py_len in *. rewrite length_app. simpl. lia.
        -- unfold py_len. simpl. lia.
        -- apply Forall_app; split; [exact Hs|]. repeat constructor. exact Hx.
        -- constructor.
        -- exists s', l'. rewrite He. repeat split; auto.
           rewrite <- Hp. simpl. rewrite <- app_assoc. reflexivity.
      * assert (Hsw : py_swap (pre ++ small ++ (b :: large) ++ (x :: rest) ++ p :: post) lp current
                      = Ok (pre ++ (small ++ [x]) ++ (large ++ [b]) ++ rest ++ p :: post)).
        { replace (pre ++ small ++ (b :: large) ++ (x :: rest) ++ p :: post)
            with ((pre ++ small) ++ b :: large ++ x :: rest ++ p :: post)
            by (now rewrite <- !app_assoc).
          replace (pre ++ (small ++ [x]) ++ (large ++ [b]) ++ rest ++ p :: post)
            with ((pre ++ small) ++ x :: large ++ b :: rest ++ p :: post)
            by (now rewrite <- !app_assoc).
          apply py_swap_apart; unfold py_len in *; rewrite ?length_app; simpl in *; lia. }
        rewrite Hsw. cbn [mbind Res_bind].
        destruct (IH (small ++ [x]) (large ++ [b]) (current + 1) (lp + 1))
          as (s' & l' & He & Hs' & Hl' & Hp).
        -- unfold py_len in *. rewrite length_app. simpl. lia.
        -- unfold py_len in *. rewrite length_app. simpl in *. lia.
        -- apply Forall_app; split; [exact Hs|]. repeat constructor. exact Hx.
        -- inversion Hl; subst. apply Forall_app; split; [assumption|].
           repeat constructor. assumption.
        -- exists s', l'. rewrite He. repeat split; auto.
           rewrite <- Hp. rewrite <- !app_assoc. apply Permutation_app_head.
           solve_Permutation.
    + (* the record joins the large ones *)
      destruct (IH small (large ++ [x]) (current + 1) lp) as (s' & l' & He & Hs' & Hl' & Hp).
      * exact Hlp.
      * unfold py_len in *. rewrite length_app. simpl. lia.
      * exact Hs.
      * apply Forall_app; split; [exact Hl|]. repeat constructor. exact Hx.
      * exists s', l'.
        replace (pre ++ small ++ large ++ (x :: rest) ++ p :: post)
          with (pre ++ small ++ (large ++ [x]) ++ rest ++ p :: post)
          by (now rewrite <- !app_assoc).
        rewrite He. repeat split; auto.
        rewrite <- Hp. now rewrite <- !app_assoc.
Qed.

Lemma partition_spec (pre seg post : list Property) (low high : Z) :
  low = py_len pre → high = low + py_len seg - 1 → low < high →
  ∃ small pivot large,
    partition (pre ++ seg ++ post) low high
    = Ok (pre ++ small ++ pivot :: large ++ post, low + py_len small)
    ∧ Forall (le_price (price pivot)) small
    ∧ Forall (gt_price (price pivot)) large
    ∧ Permutation seg (small ++ pivot :: large).
Proof.
  intros Hlow Hhigh Hlt. unfold partition.
  set (mid := (low + high) / 2).
  assert (Hmid : low <= mid < high).
  { unfold mid. split.
    - apply Z.div_le_lower_bound; lia.
    - apply Z.div_lt_upper_bound; lia. }
  (* the range is: s1, the middle record m, s2, the last record h *)
  set (k := Z.to_nat (mid - low)).
  assert (Hk : (S k < length seg)%nat) by (unfold py_len in *; lia).
  destruct (lookup_lt_is_Some_2 seg k) as [m Hm]; [lia|].
  pose proof (take_drop_middle seg k m Hm) as Hseg.
  destruct (exists_last (l := drop (S k) seg)) as (s2 & h & Hdrop).
  { intros Hnil. apply (f_equal length) in Hnil. rewrite length_drop in Hnil.
    simpl in Hnil. lia. }
  set (s1 := take k seg) in *.
  assert (Hs1 : py_len s1 = mid - low).
  { unfold py_len, s1. rewrite length_take. lia. }
  clearbody s1.
  rewrite Hdrop in Hseg.
  assert (Hlen : py_len seg = py_len s1 + 1 + py_len s2 + 1).
  { rewrite <- Hseg. unfold py_len. rewrite !length_app. simpl.
    rewrite length_app. simpl. lia. }
  rewrite <- Hseg.
  assert (Hsw1 : py_swap (pre ++ (s1 ++ m :: s2 ++ [h]) ++ post) mid high
                 = Ok (pre ++ [] ++ [] ++ (s1 ++ h :: s2) ++ m :: post)).
  { replace (pre ++ (s1 ++ m :: s2 ++ [h]) ++ post)
      with ((pre ++ s1) ++ m :: s2 ++ h :: post)
      by (rewrite <- !app_assoc; simpl; now rewrite <- !app_assoc).
    replace (pre ++ [] ++ [] ++ (s1 ++ h :: s2) ++ m :: post)
      with ((pre ++ s1) ++ h :: s2 ++ m :: post)
      by (simpl; rewrite <- !app_assoc; reflexivity).
    apply py_swap_apart; unfold py_len in *; rewrite length_app; lia. }
  rewrite Hsw1. cbn [mbind Res_bind].
  assert (Hget : py_get (pre ++ [] ++ [] ++ (s1 ++ h :: s2) ++ m :: post) high = Ok m).
  { replace (pre ++ [] ++ [] ++ (s1 ++ h :: s2) ++ m :: post)
      with ((pre ++ s1 ++ h :: s2) ++ m :: post)
      by (simpl; now rewrite <- !app_assoc).
    apply py_get_middle. unfold py_len in *. rewrite !length_app. simpl. lia. }
  rewrite Hget. cbn [mbind Res_bind].
  destruct (partition_loop_spec (price m) pre post m (s1 ++ h :: s2) [] [] low low)
    as (small & large & Hloop & Hsmall & Hlarge & Hperm).
  { unfold py_len in *. simpl. lia. }
  { unfold py_len. simpl. lia. }
  { constructor. }
  { constructor. }
  replace (low + py_len (s1 ++ h :: s2)) with high in Hloop
    by (unfold py_len in *; rewrite length_app; simpl; lia).
  rewrite Hloop. cbn [mbind Res_bind].
  simpl in Hperm.
  assert (Hcount : py_len small + py_len large = py_len s1 + 1 + py_len s2).
  { apply Permutation_length in Hperm. unfold py_len.
    rewrite !length_app in Hperm. simpl in Hperm. lia. }
  rewrite <- Hlow.
  destruct large as [|b large].
  - exists small, m, [].
    replace (pre ++ small ++ [] ++ m :: post) with ((pre ++ small) ++ m :: post)
      by (now rewrite <- !app_assoc).
    replace high with (low + py_len small)
      by (unfold py_len in *; simpl in *; lia).
    rewrite py_swap_same
      by (unfold py_len in *; rewrite length_app; simpl in *; lia).
    cbn [mbind Res_bind]. rewrite <- !app_assoc. repeat split; auto.
    rewrite app_nil_r in Hperm. rewrite <- Hperm. solve_Permutation.
  - exists small, m, (large ++ [b]).
    replace (pre ++ small ++ (b :: large) ++ m :: post)
      with ((pre ++ small) ++ b :: large ++ m :: post)
      by (now rewrite <- !app_assoc).
    rewrite (py_swap_apart (pre ++ small) large post b m)
      by (unfold py_len in *; rewrite length_app; simpl in *; lia).
    cbn [mbind Res_bind]. repeat split; auto.
    + rewrite <- !app_assoc. reflexivity.
    + inversion Hlarge; subst. apply Forall_app; split; [assumption|].
      repeat constructor. assumption.
    + transitivity (m :: s1 ++ h :: s2); [solve_Permutation|].
      rewrite Hperm. solve_Permutation.
Qed.

(** ** Quicksort sorts its range *)

Lemma sorted_by_price_short (l : list Property) :
  (length l <= 1)%nat → sorted_by_price l.
Proof.
  destruct l as [|a [|b l]]; simpl; intros H; try lia.
  - constructor.
  - constructor; constructor.
Qed.

Lemma sorted_by_price_join (small large : list Property) (pivot : Property) :
  sorted_by_price small → sorted_by_price large →
  Forall (le_price (price pivot)) small →
  Forall (gt_price (price pivot)) large →
  sorted_by_price (small ++ pivot :: large).
Proof.
  intros Hs Hl Hle Hgt. induction Hs as [|a small Hs IH Ha]; simpl.
  - constructor; [exact Hl|].
    eapply Forall_impl; [exact Hgt|]. unfold gt_price, price_le. intros; lia.
  - inversion Hle as [|? ? Hap Hle']; subst.
    constructor; [apply IH; exact Hle'|].
    apply Forall_app; split; [exact Ha|].
    constructor; [exact Hap|].
    eapply Forall_impl; [exact Hgt|].
    unfold gt_price, le_price, price_le in *. intros; lia.
Qed.

Lemma quick_sort_fuel_eq (fuel : nat) (items : list Property) (low high : Z) :
  quick_sort_fuel fuel items low high
  = if low >=? high then Ok items
    else match fuel with
         | O => OutOfFuel
         | S fuel' =>
             '(items3, left_pointer) ← partition items low high;
             items4 ← quick_sort_fuel fuel' items3 low (left_pointer - 1);
             quick_sort_fuel fuel' items4 (left_pointer + 1) high
         end.
Proof. destruct fuel; reflexivity. Qed.

Lemma quick_sort_fuel_spec (fuel : nat) :
  ∀ pre seg post : list Property,
    (length seg <= S fuel)%nat →
    ∃ seg',
      quick_sort_fuel fuel (pre ++ seg ++ post)
        (py_len pre) (py_len pre + py_len seg - 1)
      = Ok (pre ++ seg' ++ post)
      ∧ Permutation seg seg' ∧ sorted_by_price seg'.
Proof.
  induction fuel as [|fuel IH]; intros pre seg post Hlen;
    rewrite quick_sort_fuel_eq;
    destruct (Z.geb_spec (py_len pre) (py_len pre + py_len seg - 1)) as [Hge|Hlt].
  - exists seg. repeat split; auto.
    apply sorted_by_price_short. unfold py_len in *. lia.
  - unfold py_len in *. lia.
  - exists seg. repeat split; auto.
    apply sorted_by_price_short. unfold py_len in *. lia.
  - destruct (partition_spec pre seg post (py_len pre) (py_len pre + py_len seg - 1))
      as (small & pivot & large & Hpart & Hsmall & Hlarge & Hperm); [reflexivity|reflexivity|lia|].
    rewrite Hpart. cbn [mbind Res_bind].
    assert (Hcount : (length small + 1 + length large = length seg)%nat).
    { apply Permutation_length in Hperm. rewrite length_app in Hperm.
      simpl in Hperm. lia. }
    (* the left range *)
    destruct (IH pre small (pivot :: large ++ post)) as (small' & Hq1 & Hp1 & Hs1); [lia|].
    rewrite Hq1. cbn [mbind Res_bind].
    (* the right range *)
    destruct (IH (pre ++ small' ++ [pivot]) large post) as (large' & Hq2 & Hp2 & Hs2); [lia|].
    assert (Hlen1 : length small' = length small)
      by (symmetry; now apply Permutation_length).
    replace (py_len (pre ++ small' ++ [pivot])) with (py_len pre + py_len small + 1) in Hq2
      by (unfold py_len; rewrite !length_app; simpl; lia).
    replace (py_len pre + py_len small + 1 + py_len large - 1)
      with (py_len pre + py_len seg - 1) in Hq2
      by (unfold py_len; lia).
    replace ((pre ++ small' ++ [pivot]) ++ large ++ post)
      with (pre ++ small' ++ pivot :: large ++ post) in Hq2
      by (rewrite <- !app_assoc; reflexivity).
    rewrite Hq2.
    exists (small' ++ pivot :: large'). split; [|split].
    + rewrite <- !app_assoc. reflexivity.
    + rewrite Hperm, Hp1, Hp2. reflexivity.
    + apply sorted_by_price_join; auto.
      * rewrite <- Hp1. exact Hsmall.
      * rewrite <- Hp2. exact Hlarge.
Qed.

(** The call made by [sort_properties_by_price]: the whole list. *)
Lemma quick_sort_whole (items : list Property) :
  ∃ sorted,
    _quick_sort_by_price items 0 (py_len items - 1) = Ok sorted
    ∧ Permutation items sorted ∧ sorted_by_price sorted.
Proof.
  destruct (quick_sort_fuel_spec (Z.to_nat (py_len items - 1 - 0)) [] items [])
    as (sorted & Hq & Hp & Hs).
  { unfold py_len. lia. }
  exists sorted. unfold _quick_sort_by_price.
  simpl in Hq. rewrite !app_nil_r in Hq.
  change (py_len []) with 0 in Hq. rewrite Z.add_0_l in Hq.
  rewrite Hq. auto.
Qed.

(** ** The boundary searches on a list sorted by price *)

Lemma sorted_by_price_lookup (l : list Property) (i j : nat) (a b : Property) :
  sorted_by_price l → (i <= j)%nat →
  l !! i = Some a → l !! j = Some b → price a <= price b.
Proof.
  intros Hs. revert i j. induction Hs as [|c l Hs IH Hc]; intros i j Hij Ha Hb.
  - discriminate.
  - destruct i as [|i], j as [|j]; simpl in *.
    + injection Ha as <-. injection Hb as <-. lia.
    + injection Ha as <-. rewrite Forall_lookup in Hc. exact (Hc j b Hb).
    + lia.
    + apply (IH i j); auto. lia.
Qed.

Lemma py_get_in_range {A} (l : list A) (i : Z) :
  0 <= i < py_len l → ∃ x, l !! Z.to_nat i = Some x ∧ py_get l i = Ok x.
Proof.
  intros Hi. destruct (lookup_lt_is_Some_2 l (Z.to_nat i)) as [x Hx].
  { unfold py_len in Hi. lia. }
  exists x. split; [exact Hx|].
  rewrite <- (Z2Nat.id i) by lia. now apply py_get_nat.
Qed.

Lemma min_price_loop_eq (fuel : nat) (l : list Property) (min_price left right result : Z) :
  min_price_loop fuel l min_price left right result
  = if left <=? right then
      match fuel with
      | O => OutOfFuel
      | S fuel' =>
          let mid := (left + right) / 2 in
          x ← py_get l mid;
          if price x >=? min_price
          then min_price_loop fuel' l min_price left (mid - 1) mid
          else min_price_loop fuel' l min_price (mid + 1) right result
      end
    else Ok result.
Proof. destruct fuel; reflexivity. Qed.

Lemma max_price_loop_eq (fuel : nat) (l : list Property) (max_price left right result : Z) :
  max_price_loop fuel l max_price left right result
  = if left <=? right then
      match fuel with
      | O => OutOfFuel
      | S fuel' =>
          let mid := (left + right) / 2 in
          x ← py_get l mid;
          if price x <=? max_price
          then max_price_loop fuel' l max_price (mid + 1) right mid
          else max_price_loop fuel' l max_price left (mid - 1) result
      end
    else Ok result.
Proof. destruct fuel; reflexivity. Qed.

Lemma midpoint_between (left right : Z) :
  left <= right → left <= (left + right) / 2 <= right.
Proof.
  intros H. split.
  - apply Z.div_le_lower_bound; lia.
  - apply Z.div_le_upper_bound; lia.
Qed.

Section BoundarySearch.
Variable l : list Property.
Hypothesis l_sorted : sorted_by_price l.

(** Loop invariant of the lower bound search: records left of [left]
    are cheaper than [min_price], records right of [right] are not, and
    [result] is [right + 1]. *)
Lemma min_price_loop_spec (min_price : Z) (fuel : nat) :
  ∀ left right : Z,
    0 <= left → right < py_len l → left <= right + 1 →
    (Z.to_nat (right + 1 - left) <= fuel)%nat →
    (∀ (i : nat) x, Z.of_nat i < left → l !! i = Some x → price x < min_price) →
    (∀ (i : nat) x, right < Z.of_nat i → l !! i = Some x → min_price <= price x) →
    ∃ r, min_price_loop fuel l min_price left right (right + 1) = Ok r
         ∧ left <= r <= right + 1
         ∧ (∀ (i : nat) x, Z.of_nat i < r → l !! i = Some x → price x < min_price)
         ∧ (∀ (i : nat) x, r <= Z.of_nat i → l !! i = Some x → min_price <= price x).
Proof.
  induction fuel as [|fuel IH]; intros left right H0 Hr Hlr Hfuel Hlo Hhi;
    rewrite min_price_loop_eq;
    destruct (Z.leb_spec left right) as [Hle|Hgt].
  - lia.
  - exists (right + 1). repeat split; auto; try lia.
    + intros i x Hi. apply Hlo. lia.
    + intros i x Hi. apply Hhi. lia.
  - pose proof (midpoint_between left right Hle) as Hmid.
    cbv zeta. set (mid := (left + right) / 2) in *.
    destruct (py_get_in_range l mid) as (x & Hx & Hget); [lia|].
    rewrite Hget. cbn [mbind Res_bind].
    destruct (Z.geb_spec (price x) min_price) as [Hp|Hp].
    + destruct (IH left (mid - 1)) as (r & Hloop & Hrange & Hr1 & Hr2);
        try lia; auto.
      { intros i y Hi Hy.
        pose proof (sorted_by_price_lookup l (Z.to_nat mid) i x y l_sorted) as Hs.
        specialize (Hs ltac:(lia) Hx Hy). lia. }
      replace (mid - 1 + 1) with mid in Hloop by lia.
      exists r. rewrite Hloop. repeat split; auto; lia.
    + destruct (IH (mid + 1) right) as (r & Hloop & Hrange & Hr1 & Hr2);
        try lia; auto.
      { intros i y Hi Hy.
        pose proof (sorted_by_price_lookup l i (Z.to_nat mid) y x l_sorted) as Hs.
        specialize (Hs ltac:(lia) Hy Hx). lia. }
      exists r. rewrite Hloop. repeat split; auto; lia.
  - exists (right + 1). repeat split; auto; try lia.
    + intros i x Hi. apply Hlo. lia.
    + intros i x Hi. apply Hhi. lia.
Qed.

(** Loop invariant of the upper bound search: records left of [left]
    are at most [max_price], records right of [right] are dearer, and
    [result] is [left - 1]. *)
Lemma max_price_loop_spec (max_price : Z) (fuel : nat) :
  ∀ left right : Z,
    0 <= left → right < py_len l → left <= right + 1 →
    (Z.to_nat (right + 1 - left) <= fuel)%nat →
    (∀ (i : nat) x, Z.of_nat i < left → l !! i = Some x → price x <= max_price) →
    (∀ (i : nat) x, right < Z.of_nat i → l !! i = Some x → max_price < price x) →
    ∃ r, max_price_loop fuel l max_price left right (left - 1) = Ok r
         ∧ left - 1 <= r <= right
         ∧ (∀ (i : nat) x, Z.of_nat i <= r → l !! i = Some x → price x <= max_price)
         ∧ (∀ (i : nat) x, r < Z.of_nat i → l !! i = Some x → max_price < price x).
Proof.
  induction fuel as [|fuel IH]; intros left right H0 Hr Hlr Hfuel Hlo Hhi;
    rewrite max_price_loop_eq;
    destruct (Z.leb_spec left right) as [Hle|Hgt].
  - lia.
  - exists (left - 1). repeat split; auto; try lia.
    + intros i x Hi. apply Hlo. lia.
    + intros i x Hi. apply Hhi. lia.
  - pose proof (midpoint_between left right Hle) as Hmid.
    cbv zeta. set (mid := (left + right) / 2) in *.
    destruct (py_get_in_range l mid) as (x & Hx & Hget); [lia|].
    rewrite Hget. cbn [mbind Res_bind].
    destruct (Z.leb_spec (price x) max_price) as [Hp|Hp].
    + destruct (IH (mid + 1) right) as (r & Hloop & Hrange & Hr1 & Hr2);
        try lia; auto.
      { intros i y Hi Hy.
        pose proof (sorted_by_price_lookup l i (Z.to_nat mid) y x l_sorted) as Hs.
        specialize (Hs ltac:(lia) Hy Hx). lia. }
      replace (mid + 1 - 1) with mid in Hloop by lia.
      exists r. rewrite Hloop. repeat split; auto; lia.
    + destruct (IH left (mid - 1)) as (r & Hloop & Hrange & Hr1 & Hr2);
        try lia; auto.
      { intros i y Hi Hy.
        pose proof (sorted_by_price_lookup l (Z.to_nat mid) i x y l_sorted) as Hs.
        specialize (Hs ltac:(lia) Hx Hy). lia. }
      exists r. rewrite Hloop. repeat split; auto; lia.
  - exists (left - 1). repeat split; auto; try lia.
    + intros i x Hi. apply Hlo. lia.
    + intros i x Hi. apply Hhi. lia.
Qed.

Lemma binary_search_min_price_bounds (min_price : Z) :
  ∃ r, _binary_search_min_price l min_price = Ok r
       ∧ 0 <= r <= py_len l
       ∧ (∀ (i : nat) x, Z.of_nat i < r → l !! i = Some x → price x < min_price)
       ∧ (∀ (i : nat) x, r <= Z.of_nat i → l !! i = Some x → min_price <= price x).
Proof.
  unfold _binary_search_min_price.
  destruct (min_price_loop_spec min_price (length l) 0 (py_len l - 1))
    as (r & Hloop & Hrange & H1 & H2); try (unfold py_len; lia).
  - intros i x Hi Hx. apply lookup_lt_Some in Hx. unfold py_len in Hi. lia.
  - replace (py_len l - 1 + 1) with (py_len l) in * by lia.
    exists r. auto.
Qed.

Lemma binary_search_max_price_bounds (max_price : Z) :
  ∃ r, _binary_search_max_price l max_price = Ok r
       ∧ -1 <= r <= py_len l - 1
       ∧ (∀ (i : nat) x, Z.of_nat i <= r → l !! i = Some x → price x <= max_price)
       ∧ (∀ (i : nat) x, r < Z.of_nat i → l !! i = Some x → max_price < price x).
Proof.
  unfold _binary_search_max_price.
  destruct (max_price_loop_spec max_price (length l) 0 (py_len l - 1))
    as (r & Hloop & Hrange & H1 & H2); try (unfold py_len; lia).
  - intros i x Hi Hx. apply lookup_lt_Some in Hx. unfold py_len in Hi. lia.
  - change (0 - 1) with (-1) in *.
    exists r. auto.
Qed.
End BoundarySearch.

Lemma lower_bound_of_bounds (l : list Property) (min_price r : Z) :
  0 <= r <= py_len l →
  (∀ (i : nat) x, Z.of_nat i < r → l !! i = Some x → price x < min_price) →
  (∀ (i : nat) x, r <= Z.of_nat i → l !! i = Some x → min_price <= price x) →
  is_lower_bound l min_price r.
Proof.
  intros Hr H1 H2. destruct (Z.eq_dec r (py_len l)) as [->|Hne].
  - left. split; [reflexivity|]. intros x Hx.
    apply list_elem_of_lookup in Hx as [i Hi].
    apply (H1 i x); [|exact Hi]. apply lookup_lt_Some in Hi. unfold py_len. lia.
  - right. split; [lia|]. split; [|exact H1].
    destruct (lookup_lt_is_Some_2 l (Z.to_nat r)) as [x Hx].
    { unfold py_len in *. lia. }
    exists x. split; [exact Hx|]. apply (H2 (Z.to_nat r) x); [lia|exact Hx].
Qed.

Lemma upper_bound_of_bounds (l : list Property) (max_price r : Z) :
  -1 <= r <= py_len l - 1 →
  (∀ (i : nat) x, Z.of_nat i <= r → l !! i = Some x → price x <= max_price) →
  (∀ (i : nat) x, r < Z.of_nat i → l !! i = Some x → max_price < price x) →
  is_upper_bound l max_price r.
Proof.
  intros Hr H1 H2. destruct (Z.eq_dec r (-1)) as [->|Hne].
  - left. split; [reflexivity|]. intros x Hx.
    apply list_elem_of_lookup in Hx as [i Hi].
    apply (H2 i x); [lia|exact Hi].
  - right. split; [lia|]. split; [|exact H2].
    destruct (lookup_lt_is_Some_2 l (Z.to_nat r)) as [x Hx].
    { unfold py_len in *. lia. }
    exists x. split; [exact Hx|]. apply (H1 (Z.to_nat r) x); [lia|exact Hx].
Qed.

(** C5.  On a list sorted ascending by price, the lower bound search
    returns the smallest index whose price is at least [min_price], or the
    length of the list when no index qualifies; the upper bound search
    returns the largest index whose price is at most [max_price], or -1
    when no index qualifies. *)
Theorem boundary_searches_spec (l : list Property) (min_price max_price : Z) :
  sorted_by_price l →
  (∃ r, _binary_search_min_price l min_price = Ok r ∧ is_lower_bound l min_price r)
  ∧ (∃ r, _binary_search_max_price l max_price = Ok r ∧ is_upper_bound l max_price r).
Proof.
  intros Hs. split.
  - destruct (binary_search_min_price_bounds l Hs min_price) as (r & Hr & Hb & H1 & H2).
    exists r. split; [exact Hr|]. now apply lower_bound_of_bounds.
  - destruct (binary_search_max_price_bounds l Hs max_price) as (r & Hr & Hb & H1 & H2).
    exists r. split; [exact Hr|]. now apply upper_bound_of_bounds.
Qed.

Lemma boundary_searches_sample :
  sorted_by_price sample_listings
  ∧ (∃ r, _binary_search_min_price sample_listings 250 = Ok r
          ∧ is_lower_bound sample_listings 250 r)
  ∧ (∃ r, _binary_search_max_price sample_listings 250 = Ok r
          ∧ is_upper_bound sample_listings 250 r).
Proof.
  assert (Hs : sorted_by_price sample_listings).
  { unfold sample_listings, sorted_by_price.
    repeat (constructor; unfold price_le; simpl; try lia). }
  split; [exact Hs|].
  exact (boundary_searches_spec sample_listings 250 250 Hs).
Defined.

(** ** The store *)

Lemma deref_alloc_new (h : Heap) (l : list Property) :
  deref (h ++ [l]) (length h) = l.
Proof. unfold deref. now rewrite list_lookup_middle. Qed.

Lemma deref_alloc_old (h : Heap) (l : list Property) (r : nat) :
  (r < length h)%nat → deref (h ++ [l]) r = deref h r.
Proof. intros Hr. unfold deref. now rewrite lookup_app_l. Qed.

Lemma deref_dangling (h : Heap) (r : nat) :
  (length h <= r)%nat → deref h r = [].
Proof. intros Hr. unfold deref. now rewrite lookup_ge_None_2. Qed.

Lemma insert_alloc_new (h : Heap) (l l' : list Property) :
  <[length h := l']> (h ++ [l]) = h ++ [l'].
Proof. apply insert_middle. Qed.

(** ** sort_properties_by_price *)

Lemma sort_properties_by_price_spec (e : PropertyListingEngine) :
  ∃ sorted,
    Permutation (list_all e) sorted ∧ sorted_by_price sorted
    ∧ sort_properties_by_price e true
      = Ok (length (heap e), set_heap e (heap e ++ [sorted]))
    ∧ sort_properties_by_price e false
      = Ok (if decide (list_all e = [])
            then (length (heap e), set_heap e (heap e ++ [[]]))
            else (S (length (heap e)),
                  set_heap e (heap e ++ [sorted; rev sorted]))).
Proof.
  unfold sort_properties_by_price, list_all, get_all_properties, alloc.
  destruct (decide (deref (heap e) (properties e) = [])) as [Hnil|Hne].
  - exists []. rewrite Hnil. repeat split; auto. constructor.
  - rewrite deref_alloc_new.
    destruct (quick_sort_whole (deref (heap e) (properties e)))
      as (sorted & Hq & Hp & Hs).
    exists sorted. rewrite Hq. cbn [mbind Res_bind negb].
    rewrite insert_alloc_new, deref_alloc_new.
    repeat split; auto.
    rewrite length_app. simpl. rewrite <- app_assoc. simpl.
    repeat f_equal. lia.
Qed.

(** C3.  Sorting ascending returns a new list object, a permutation of
    the primary collection in ascending order of price; every list object
    that existed before the call, the primary collection among them, and
    every other field of the engine are as they were. *)
Theorem sort_ascending_spec (e : PropertyListingEngine) :
  ∃ r e',
    sort_properties_by_price e true = Ok (r, e')
    ∧ (length (heap e) <= r)%nat
    ∧ Permutation (list_all e) (deref (heap e') r)
    ∧ sorted_by_price (deref (heap e') r)
    ∧ list_all e' = list_all e
    ∧ (∀ r0, (r0 < length (heap e))%nat → heap e' !! r0 = heap e !! r0)
    ∧ properties e' = properties e ∧ location_map e' = location_map e
    ∧ id_map e' = id_map e ∧ next_id e' = next_id e.
Proof.
  destruct (sort_properties_by_price_spec e) as (sorted & Hp & Hs & Hasc & _).
  exists (length (heap e)), (set_heap e (heap e ++ [sorted])).
  split; [exact Hasc|]. split; [lia|].
  cbn [heap set_heap]. rewrite deref_alloc_new.
  split; [exact Hp|]. split; [exact Hs|]. split.
  - unfold list_all, get_all_properties. cbn [heap properties set_heap].
    destruct (Nat.lt_ge_cases (properties e) (length (heap e))) as [Hlt|Hge].
    + now apply deref_alloc_old.
    + (* a reference outside the store reads as the empty list on both sides *)
      assert (Hnil : list_all e = []) by (now apply deref_dangling).
      rewrite Hnil in Hp. apply Permutation_nil in Hp. subst sorted.
      unfold list_all, get_all_properties in Hnil. rewrite Hnil.
      unfold deref. destruct (decide (properties e = length (heap e))) as [->|Hne].
      * now rewrite list_lookup_middle.
      * rewrite lookup_ge_None_2; [reflexivity|]. rewrite length_app. simpl. lia.
  - split; [|repeat split].
    intros r0 Hr0. now apply lookup_app_l.
Qed.

(** C8.  Sorting descending returns the reverse of what sorting ascending
    returns, element for element, hence also as a sequence of ids. *)
Theorem sort_descending_is_reverse (e : PropertyListingEngine) :
  ∃ r1 e1 r2 e2,
    sort_properties_by_price e true = Ok (r1, e1)
    ∧ sort_properties_by_price e false = Ok (r2, e2)
    ∧ deref (heap e2) r2 = rev (deref (heap e1) r1)
    ∧ map id (deref (heap e2) r2) = rev (map id (deref (heap e1) r1)).
Proof.
  destruct (sort_properties_by_price_spec e) as (sorted & Hp & Hs & Hasc & Hdesc).
  assert (Hrev : ∃ r2 e2, sort_properties_by_price e false = Ok (r2, e2)
                          ∧ deref (heap e2) r2 = rev sorted).
  { rewrite Hdesc. destruct (decide (list_all e = [])) as [Hnil|Hne].
    - rewrite Hnil in Hp. apply Permutation_nil in Hp. subst sorted.
      eexists _, _. split; [reflexivity|]. cbn [heap set_heap].
      now rewrite deref_alloc_new.
    - eexists _, _. split; [reflexivity|]. cbn [heap set_heap].
      change (heap e ++ [sorted; rev sorted]) with (heap e ++ [sorted] ++ [rev sorted]).
      rewrite app_assoc.
      replace (S (length (heap e))) with (length (heap e ++ [sorted]))
        by (rewrite length_app; simpl; lia).
      now rewrite deref_alloc_new. }
  destruct Hrev as (r2 & e2 & Hd & Hc).
  exists (length (heap e)), (set_heap e (heap e ++ [sorted])), r2, e2.
  split; [exact Hasc|]. split; [exact Hd|].
  cbn [heap set_heap]. rewrite deref_alloc_new, Hc.
  split; [reflexivity|]. now rewrite map_rev.
Qed.

(** ** search_by_price_range *)

Lemma filter_all {A} (P : A → Prop) `{∀ x, Decision (P x)} (l : list A) :
  Forall P l → filter P l = l.
Proof.
  induction 1 as [|x l Hx Hl IH]; [reflexivity|].
  rewrite filter_cons_True by assumption. now rewrite IH.
Qed.

Lemma filter_none {A} (P : A → Prop) `{∀ x, Decision (P x)} (l : list A) :
  Forall (fun x => ¬ P x) l → filter P l = [].
Proof.
  induction 1 as [|x l Hx Hl IH]; [reflexivity|].
  now rewrite filter_cons_False by assumption.
Qed.

Lemma sorted_by_price_filter (P : Property → Prop) `{∀ x, Decision (P x)}
    (l : list Property) :
  sorted_by_price l → sorted_by_price (filter P l).
Proof.
  induction 1 as [|a l Hs IH Ha]; [constructor|].
  destruct (decide (P a)) as [Hp|Hp].
  - rewrite filter_cons_True by assumption. constructor; [exact IH|].
    rewrite list.Forall_forall in *. intros x Hx.
    apply list_elem_of_filter in Hx as [_ Hx]. now apply Ha.
  - now rewrite filter_cons_False by assumption.
Qed.

(** The combination rule of the range search: with the two boundary
    indices, the slice taken (or the empty list) is the list of the
    records of the sorted list whose price is in the range. *)
Lemma range_slice_is_filter (l : list Property) (min_price max_price r1 r2 : Z) :
  0 <= r1 <= py_len l → -1 <= r2 <= py_len l - 1 →
  (∀ (i : nat) x, Z.of_nat i < r1 → l !! i = Some x → price x < min_price) →
  (∀ (i : nat) x, r1 <= Z.of_nat i → l !! i = Some x → min_price <= price x) →
  (∀ (i : nat) x, Z.of_nat i <= r2 → l !! i = Some x → price x <= max_price) →
  (∀ (i : nat) x, r2 < Z.of_nat i → l !! i = Some x → max_price < price x) →
  (if (r1 <=? r2) && (r1 <? py_len l) then py_slice l r1 (r2 + 1) else [])
  = filter (in_price_range min_price max_price) l.
Proof.
  intros Hr1 Hr2 L1 L2 U1 U2.
  destruct (Z.leb_spec r1 r2) as [Hle|Hgt]; cbn [andb].
  - destruct (Z.ltb_spec r1 (py_len l)) as [Hlt|Hge]; [|lia].
    unfold py_slice.
    set (n1 := Z.to_nat r1). set (n2 := Z.to_nat (r2 + 1)).
    assert (Hn : (n1 <= n2)%nat) by lia.
    rewrite <- (take_drop n1 l) at 2.
    rewrite <- (take_drop (n2 - n1) (drop n1 l)) at 2.
    rewrite !filter_app.
    rewrite (filter_none _ (take n1 l)), (filter_all _ (take (n2 - n1) (drop n1 l))),
      (filter_none _ (drop (n2 - n1) (drop n1 l))).
    + now rewrite app_nil_r.
    + rewrite drop_drop. apply Forall_lookup. intros i x Hx.
      rewrite lookup_drop in Hx. unfold in_price_range.
      assert (max_price < price x) by (apply (U2 (n1 + (n2 - n1) + i)%nat x); [lia|exact Hx]).
      lia.
    + apply Forall_lookup. intros i x Hx.
      apply lookup_take_Some in Hx as [Hx Hi]. rewrite lookup_drop in Hx.
      unfold in_price_range. split.
      * apply (L2 (n1 + i)%nat x); [lia|exact Hx].
      * apply (U1 (n1 + i)%nat x); [lia|exact Hx].
    + apply Forall_lookup. intros i x Hx.
      apply lookup_take_Some in Hx as [Hx Hi]. unfold in_price_range.
      assert (price x < min_price) by (apply (L1 i x); [lia|exact Hx]).
      lia.
  - symmetry. apply filter_none. apply Forall_lookup. intros i x Hx.
    unfold in_price_range.
    destruct (Z.lt_ge_cases (Z.of_nat i) r1) as [Hi|Hi].
    + pose proof (L1 i x Hi Hx). lia.
    + assert (max_price < price x) by (apply (U2 i x); [lia|exact Hx]). lia.
Qed.

Lemma search_by_price_range_spec (e : PropertyListingEngine) (min_price max_price : Z) :
  ∃ sorted,
    Permutation (list_all e) sorted ∧ sorted_by_price sorted
    ∧ search_by_price_range e min_price max_price
      = Ok (S (length (heap e)),
            set_heap e (heap e ++ [sorted; filter (in_price_range min_price max_price) sorted])).
Proof.
  destruct (sort_properties_by_price_spec e) as (sorted & Hp & Hs & Hasc & _).
  exists sorted. split; [exact Hp|]. split; [exact Hs|].
  unfold search_by_price_range. rewrite Hasc. cbn [mbind Res_bind heap set_heap].
  rewrite deref_alloc_new.
  destruct (binary_search_min_price_bounds sorted Hs min_price) as (r1 & Hb1 & Hr1 & L1 & L2).
  destruct (binary_search_max_price_bounds sorted Hs max_price) as (r2 & Hb2 & Hr2 & U1 & U2).
  rewrite Hb1, Hb2. cbn [mbind Res_bind].
  pose proof (range_slice_is_filter sorted min_price max_price r1 r2 Hr1 Hr2 L1 L2 U1 U2) as Hf.
  assert (Hnew : S (length (heap e)) = length (heap e ++ [sorted]))
    by (rewrite length_app; simpl; lia).
  destruct ((r1 <=? r2) && (r1 <? py_len sorted)); unfold alloc;
    rewrite Hf, <- Hnew; unfold set_heap; cbn [heap properties location_map id_map next_id];
    rewrite <- app_assoc; reflexivity.
Qed.

Lemma search_by_price_range_result (e : PropertyListingEngine) (min_price max_price : Z) :
  ∃ r e' sorted,
    search_by_price_range e min_price max_price = Ok (r, e')
    ∧ Permutation (list_all e) sorted ∧ sorted_by_price sorted
    ∧ deref (heap e') r = filter (in_price_range min_price max_price) sorted.
Proof.
  destruct (search_by_price_range_spec e min_price max_price) as (sorted & Hp & Hs & Hq).
  eexists _, _, sorted. split; [exact Hq|]. split; [exact Hp|]. split; [exact Hs|].
  cbn [heap set_heap].
  change (heap e ++ [sorted; filter (in_price_range min_price max_price) sorted])
    with (heap e ++ [sorted] ++ [filter (in_price_range min_price max_price) sorted]).
  rewrite app_assoc.
  replace (S (length (heap e))) with (length (heap e ++ [sorted]))
    by (rewrite length_app; simpl; lia).
  apply deref_alloc_new.
Qed.

(** C1.  For [min_price <= max_price], the range search returns exactly
    the records of the primary collection whose price is in the closed
    interval, in ascending order of price; the result is empty when every
    stored price is below [min_price] or above [max_price]. *)
Theorem search_by_price_range_correct (e : PropertyListingEngine) (min_price max_price : Z) :
  min_price <= max_price →
  ∃ r e',
    search_by_price_range e min_price max_price = Ok (r, e')
    ∧ Permutation (deref (heap e') r)
        (filter (in_price_range min_price max_price) (list_all e))
    ∧ sorted_by_price (deref (heap e') r)
    ∧ ((∀ x, x ∈ list_all e → price x < min_price)
       ∨ (∀ x, x ∈ list_all e → max_price < price x) →
       deref (heap e') r = []).
Proof.
  intros _.
  destruct (search_by_price_range_result e min_price max_price)
    as (r & e' & sorted & Hq & Hp & Hs & Hd).
  exists r, e'. split; [exact Hq|]. rewrite Hd. split; [|split].
  - now rewrite Hp.
  - now apply sorted_by_price_filter.
  - intros Hout. apply filter_none. apply list.Forall_forall. intros x Hx.
    rewrite <- Hp in Hx. unfold in_price_range.
    destruct Hout as [Hout|Hout]; specialize (Hout x Hx); lia.
Qed.

(** C9.  For [min_price > max_price] the range search returns the empty
    list: the core needs no guard on the order of the two bounds. *)
Theorem search_by_price_range_inverted (e : PropertyListingEngine) (min_price max_price : Z) :
  min_price > max_price →
  ∃ r e',
    search_by_price_range e min_price max_price = Ok (r, e')
    ∧ deref (heap e') r = [].
Proof.
  intros Hgt.
  destruct (search_by_price_range_result e min_price max_price)
    as (r & e' & sorted & Hq & Hp & Hs & Hd).
  exists r, e'. split; [exact Hq|]. rewrite Hd.
  apply filter_none. apply list.Forall_forall. intros x _.
  unfold in_price_range. lia.
Qed.

(** ** add_property and delete_property *)

Lemma add_property_eq (e : PropertyListingEngine)
    (title location : string) (price : Z) (property_type : string) :
  let new_property := mkProperty (next_id e) title location price property_type in
  let h1 := heap_append (heap e) (properties e) new_property in
  add_property e title location price property_type
  = Ok (next_id e,
        match location_map e !! _hash_location location with
        | Some bucket =>
            {| heap := heap_append h1 bucket new_property;
               properties := properties e;
               location_map := location_map e;
               id_map := <[next_id e := new_property]> (id_map e);
               next_id := next_id e + 1 |}
        | None =>
            {| heap := h1 ++ [[new_property]];
               properties := properties e;
               location_map := <[_hash_location location := length (heap e)]> (location_map e);
               id_map := <[next_id e := new_property]> (id_map e);
               next_id := next_id e + 1 |}
        end).
Proof.
  intros new_property h1. unfold add_property. fold new_property. fold h1.
  destruct (location_map e !! _hash_location location) as [bucket|] eqn:Hk.
  - rewrite decide_False by discriminate.
    unfold dict_get. rewrite Hk. reflexivity.
  - rewrite decide_True by reflexivity.
    unfold alloc, dict_get. rewrite lookup_insert_eq. cbn [mbind Res_bind].
    do 3 f_equal.
    + unfold heap_append at 1.
      replace (length h1) with (length h1 + 0)%nat by lia.
      rewrite alter_app_r. reflexivity.
    + f_equal. unfold h1, heap_append. now rewrite length_alter.
Qed.

Lemma delete_property_absent (e : PropertyListingEngine) (property_id : Z) :
  id_map e !! property_id = None → delete_property e property_id = Ok (false, e).
Proof. intros H. unfold delete_property. now rewrite decide_True. Qed.

Lemma delete_property_present (e : PropertyListingEngine) (property_id : Z)
    (deleted_property : Property) :
  id_map e !! property_id = Some deleted_property →
  let id_map1 := delete property_id (id_map e) in
  let kept := keep_other property_id (deref (heap e) (properties e)) in
  let location_key := _hash_location (location deleted_property) in
  delete_property e property_id
  = Ok (true,
        match location_map e !! location_key with
        | Some bucket =>
            {| heap := heap e ++ [kept; keep_other property_id (deref (heap e ++ [kept]) bucket)];
               properties := length (heap e);
               location_map := <[location_key := S (length (heap e))]> (location_map e);
               id_map := id_map1; next_id := next_id e |}
        | None =>
            {| heap := heap e ++ [kept]; properties := length (heap e);
               location_map := location_map e;
               id_map := id_map1; next_id := next_id e |}
        end).
Proof.
  intros H id_map1 kept location_key. unfold delete_property.
  rewrite decide_False by (rewrite H; discriminate).
  unfold dict_get. rewrite H. cbn [mbind Res_bind]. unfold alloc.
  fold kept. fold location_key.
  destruct (location_map e !! location_key); [|reflexivity].
  rewrite <- app_assoc. do 3 f_equal.
  rewrite length_app. simpl. f_equal. lia.
Qed.

(** C6.  Deleting an id that is not in the id view returns false and
    leaves the whole engine state (the store with the primary collection
    and the buckets, the two maps and the id counter) as it was; hence
    deleting the id of a live record twice returns true, then false, and
    the second call leaves the state reached by the first. *)
Theorem delete_absent_is_noop (e : PropertyListingEngine) (property_id : Z) :
  (id_map e !! property_id = None →
   delete_property e property_id = Ok (false, e))
  ∧ (id_map e !! property_id ≠ None →
     ∃ e1, delete_property e property_id = Ok (true, e1)
           ∧ delete_property e1 property_id = Ok (false, e1)).
Proof.
  split; [apply delete_property_absent|].
  intros Hlive. destruct (id_map e !! property_id) as [d|] eqn:Hd; [|congruence].
  rewrite (delete_property_present e property_id d Hd). cbv zeta.
  eexists. split; [reflexivity|].
  apply delete_property_absent.
  destruct (location_map e !! _hash_location (location d)); cbn [id_map];
    apply lookup_delete_eq.
Qed.

Lemma delete_twice_austin :
  (id_map austin_engine !! 7 = None
   ∧ delete_property austin_engine 7 = Ok (false, austin_engine))
  ∧ (id_map austin_engine !! 1 ≠ None
     ∧ ∃ e1, delete_property austin_engine 1 = Ok (true, e1)
             ∧ delete_property e1 1 = Ok (false, e1)).
Proof.
  assert (Habsent : id_map austin_engine !! 7 = None) by reflexivity.
  assert (Hlive : id_map austin_engine !! 1 ≠ None) by (vm_compute; discriminate).
  split.
  - split; [exact Habsent|].
    exact (proj1 (delete_absent_is_noop austin_engine 7) Habsent).
  - split; [exact Hlive|].
    exact (proj2 (delete_absent_is_noop austin_engine 1) Hlive).
Defined.

(** ** Ids *)

Lemma py_range_spec (low high : Z) (i : Z) :
  i ∈ py_range low high ↔ low <= i < high.
Proof.
  unfold py_range. rewrite list_elem_of_In, in_map_iff. split.
  - intros (k & <- & Hk). apply in_seq in Hk. lia.
  - intros Hi. exists (Z.to_nat (i - low)). split; [lia|].
    apply in_seq. lia.
Qed.

Lemma py_range_increasing (n : nat) :
  ∀ low high, Z.to_nat (high - low) = n → StronglySorted Z.lt (py_range low high).
Proof.
  induction n as [|n IH]; intros low high Hn.
  - rewrite py_range_nil by lia. constructor.
  - rewrite py_range_cons by lia. constructor.
    + apply IH. lia.
    + apply list.Forall_forall. intros i Hi. apply py_range_spec in Hi. lia.
Qed.

Lemma add_property_next_id (e : PropertyListingEngine)
    (title location : string) (price : Z) (property_type : string) :
  ∃ e1, add_property e title location price property_type = Ok (next_id e, e1)
        ∧ next_id e1 = next_id e + 1
        ∧ id_map e1 !! next_id e
          = Some (mkProperty (next_id e) title location price property_type).
Proof.
  pose proof (add_property_eq e title location price property_type) as Heq.
  cbv zeta in Heq. eexists. split; [exact Heq|].
  destruct (location_map e !! _hash_location location); cbn [next_id id_map];
    (split; [reflexivity|apply lookup_insert_eq]).
Qed.

Lemma delete_property_next_id (e : PropertyListingEngine) (property_id : Z) :
  ∃ found e1, delete_property e property_id = Ok (found, e1)
              ∧ next_id e1 = next_id e.
Proof.
  destruct (id_map e !! property_id) as [d|] eqn:Hd.
  - rewrite (delete_property_present e property_id d Hd). cbv zeta.
    eexists _, _. split; [reflexivity|].
    destruct (location_map e !! _hash_location (location d)); reflexivity.
  - rewrite (delete_property_absent e property_id Hd). eauto.
Qed.

Lemma run_added_ids (ops : list op) :
  ∀ e, ∃ outs e',
    run ops e = Ok (outs, e')
    ∧ next_id e <= next_id e'
    ∧ added_ids outs = py_range (next_id e) (next_id e').
Proof.
  induction ops as [|o ops IH]; intros e.
  - exists [], e. simpl. rewrite py_range_nil by lia. repeat split; auto. lia.
  - destruct o as [title location price property_type | property_id]; cbn [run step].
    + destruct (add_property_next_id e title location price property_type)
        as (e1 & Hadd & Hnext & _).
      rewrite Hadd. cbn [mbind Res_bind].
      destruct (IH e1) as (outs & e' & Hrun & Hle & Hids).
      rewrite Hrun. cbn [mbind Res_bind].
      eexists _, _. split; [reflexivity|]. split; [lia|].
      cbn [added_ids]. rewrite Hids, Hnext.
      symmetry. apply py_range_cons. lia.
    + destruct (delete_property_next_id e property_id) as (found & e1 & Hdel & Hnext).
      rewrite Hdel. cbn [mbind Res_bind].
      destruct (IH e1) as (outs & e' & Hrun & Hle & Hids).
      rewrite Hrun. cbn [mbind Res_bind].
      eexists _, _. split; [reflexivity|]. split; [lia|].
      cbn [added_ids]. now rewrite Hids, Hnext.
Qed.

(** C7.  Whatever the sequence of adds and deletes, and whatever the
    state it starts from, every operation returns; each add returns the
    id it assigned, which is the value of the counter; the ids returned
    by the adds are the consecutive integers from the counter's initial
    value on, so they are strictly increasing in insertion order and none
    is given twice, deletions in between or not; and the next add gets an
    id above all of them. *)
Theorem ids_strictly_increasing (ops : list op) (e : PropertyListingEngine) :
  ∃ outs e',
    run ops e = Ok (outs, e')
    ∧ added_ids outs = py_range (next_id e) (next_id e')
    ∧ StronglySorted Z.lt (added_ids outs)
    ∧ Forall (fun i => i < next_id e') (added_ids outs)
    ∧ ∀ title location price property_type,
        ∃ e'', add_property e' title location price property_type
               = Ok (next_id e', e'')
               ∧ id_map e'' !! next_id e'
                 = Some (mkProperty (next_id e') title location price property_type)
               ∧ next_id e'' = next_id e' + 1.
Proof.
  destruct (run_added_ids ops e) as (outs & e' & Hrun & Hle & Hids).
  exists outs, e'. split; [exact Hrun|]. split; [exact Hids|]. rewrite Hids.
  split; [|split].
  - now apply (py_range_increasing (Z.to_nat (next_id e' - next_id e))).
  - apply list.Forall_forall. intros i Hi. apply py_range_spec in Hi. lia.
  - intros title location price property_type.
    destruct (add_property_next_id e' title location price property_type)
      as (e'' & Hadd & Hnext & Hid).
    exists e''. auto.
Qed.

(** ** The three views stay in step *)

Lemma length_heap_append (h : Heap) (r : nat) (x : Property) :
  length (heap_append h r x) = length h.
Proof. apply length_alter. Qed.

Lemma deref_append_same (h : Heap) (r : nat) (x : Property) :
  (r < length h)%nat → deref (heap_append h r x) r = deref h r ++ [x].
Proof.
  intros Hr. unfold deref, heap_append. rewrite list_lookup_alter_eq.
  destruct (lookup_lt_is_Some_2 h r Hr) as [l Hl]. now rewrite Hl.
Qed.

Lemma deref_append_other (h : Heap) (r r' : nat) (x : Property) :
  r ≠ r' → deref (heap_append h r x) r' = deref h r'.
Proof.
  intros Hr. unfold deref, heap_append. now rewrite list_lookup_alter_ne.
Qed.

Lemma bucket_of_None (e : PropertyListingEngine) (k : Z) :
  location_map e !! k = None → bucket_of e k = [].
Proof. intros H. unfold bucket_of. now rewrite H. Qed.

Lemma init_views (h : Heap) : views_agree (__init__ h) ∧ store_ok (__init__ h).
Proof.
  assert (Hall : list_all (__init__ h) = []).
  { unfold list_all, get_all_properties, __init__, alloc. cbn [heap properties].
    apply deref_alloc_new. }
  assert (Hb : ∀ k, bucket_of (__init__ h) k = []).
  { intros k. apply bucket_of_None. apply lookup_empty. }
  split; constructor; try setoid_rewrite Hall; try setoid_rewrite Hb.
  - intros p. cbn. rewrite lookup_empty. split; [intros H; inversion H|discriminate].
  - reflexivity.
  - intros k p H. inversion H.
  - constructor.
  - intros _. constructor.
  - intros i p H. cbn in H. rewrite lookup_empty in H. discriminate.
  - cbn. rewrite length_app. simpl. lia.
  - intros k r H. cbn in H. rewrite lookup_empty in H. discriminate.
  - intros k1 k2 r H. cbn in H. rewrite lookup_empty in H. discriminate.
  - intros p H. inversion H.
Qed.

(** The effect of an add on the three views. *)
Lemma add_property_effect (e : PropertyListingEngine)
    (title location : string) (price : Z) (property_type : string) :
  store_ok e →
  let new_property := mkProperty (next_id e) title location price property_type in
  ∃ e1,
    add_property e title location price property_type = Ok (next_id e, e1)
    ∧ list_all e1 = list_all e ++ [new_property]
    ∧ (∀ k, bucket_of e1 k
            = if decide (k = _hash_location location)
              then bucket_of e k ++ [new_property] else bucket_of e k)
    ∧ id_map e1 = <[next_id e := new_property]> (id_map e)
    ∧ next_id e1 = next_id e + 1
    ∧ store_ok e1.
Proof.
  intros [Hprops Hbuckets Hdistinct Hids] new_property.
  pose proof (add_property_eq e title location price property_type) as Heq.
  cbv zeta in Heq. fold new_property in Heq.
  eexists. split; [exact Heq|]. clear Heq.
  set (k0 := _hash_location location).
  assert (Hlen : length (heap_append (heap e) (properties e) new_property) = length (heap e))
    by apply length_heap_append.
  assert (Hall0 : deref (heap_append (heap e) (properties e) new_property) (properties e)
                  = list_all e ++ [new_property])
    by (now apply deref_append_same).
  destruct (location_map e !! k0) as [b|] eqn:Hk0.
  - destruct (Hbuckets k0 b Hk0) as [Hb Hbp].
    assert (Hall : deref (heap_append (heap_append (heap e) (properties e) new_property) b
                            new_property) (properties e)
                   = list_all e ++ [new_property]).
    { rewrite deref_append_other by exact Hbp. exact Hall0. }
    split; [exact Hall|]. split; [|split; [reflexivity|split; [reflexivity|]]].
    + intros k. unfold bucket_of. cbn [location_map heap].
      destruct (decide (k = k0)) as [->|Hne].
      * rewrite Hk0. rewrite deref_append_same by (now rewrite Hlen).
        rewrite deref_append_other by auto. reflexivity.
      * destruct (location_map e !! k) as [r|] eqn:Hk; [|reflexivity].
        destruct (Hbuckets k r Hk) as [Hr Hrp].
        rewrite deref_append_other by (intros ->; apply Hne; eauto).
        rewrite deref_append_other by auto. reflexivity.
    + constructor; cbn [heap properties location_map next_id].
      * now rewrite !length_heap_append.
      * intros k r Hk. rewrite !length_heap_append. now apply (Hbuckets k).
      * exact Hdistinct.
      * intros p Hp. unfold list_all, get_all_properties in Hp.
        cbn [heap properties] in Hp. rewrite Hall in Hp.
        apply elem_of_app in Hp as [Hp|Hp].
        -- specialize (Hids p Hp). lia.
        -- apply list_elem_of_singleton in Hp. subst p. simpl. lia.
  - assert (Hall : deref (heap_append (heap e) (properties e) new_property ++ [[new_property]])
                     (properties e)
                   = list_all e ++ [new_property]).
    { rewrite deref_alloc_old by (now rewrite Hlen). exact Hall0. }
    split; [exact Hall|]. split; [|split; [reflexivity|split; [reflexivity|]]].
    + intros k. unfold bucket_of. cbn [location_map heap].
      destruct (decide (k = k0)) as [->|Hne].
      * rewrite lookup_insert_eq, Hk0. rewrite <- Hlen. now rewrite deref_alloc_new.
      * rewrite lookup_insert_ne by auto.
        destruct (location_map e !! k) as [r|] eqn:Hk; [|reflexivity].
        destruct (Hbuckets k r Hk) as [Hr Hrp].
        rewrite deref_alloc_old by (now rewrite Hlen).
        rewrite deref_append_other by auto. reflexivity.
    + constructor; cbn [heap properties location_map next_id].
      * rewrite length_app, Hlen. lia.
      * intros k r Hk. rewrite length_app, Hlen. simpl.
        destruct (decide (k = k0)) as [->|Hne].
        -- rewrite lookup_insert_eq in Hk. injection Hk as <-. lia.
        -- rewrite lookup_insert_ne in Hk by auto.
           destruct (Hbuckets k r Hk). split; [lia|auto].
      * intros k1 k2 r H1 H2.
        destruct (decide (k1 = k0)) as [->|Hne1], (decide (k2 = k0)) as [->|Hne2];
          auto.
        -- rewrite lookup_insert_eq in H1. rewrite lookup_insert_ne in H2 by auto.
           injection H1 as <-. destruct (Hbuckets k2 _ H2). lia.
        -- rewrite lookup_insert_eq in H2. rewrite lookup_insert_ne in H1 by auto.
           injection H2 as <-. destruct (Hbuckets k1 _ H1). lia.
        -- rewrite lookup_insert_ne in H1, H2 by auto. eauto.
      * intros p Hp. unfold list_all, get_all_properties in Hp.
        cbn [heap properties] in Hp. rewrite Hall in Hp.
        apply elem_of_app in Hp as [Hp|Hp].
        -- specialize (Hids p Hp). lia.
        -- apply list_elem_of_singleton in Hp. subst p. simpl. lia.
Qed.

(** The effect of the delete of a live record on the three views. *)
Lemma delete_property_effect (e : PropertyListingEngine) (property_id : Z)
    (deleted_property : Property) :
  store_ok e → id_map e !! property_id = Some deleted_property →
  ∃ e1,
    delete_property e property_id = Ok (true, e1)
    ∧ list_all e1 = keep_other property_id (list_all e)
    ∧ (∀ k, bucket_of e1 k
            = if decide (k = _hash_location (location deleted_property))
              then keep_other property_id (bucket_of e k) else bucket_of e k)
    ∧ id_map e1 = delete property_id (id_map e)
    ∧ next_id e1 = next_id e
    ∧ store_ok e1.
Proof.
  intros [Hprops Hbuckets Hdistinct Hids] Hd.
  rewrite (delete_property_present e property_id deleted_property Hd). cbv zeta.
  eexists. split; [reflexivity|].
  set (kd := _hash_location (location deleted_property)).
  set (kept := keep_other property_id (deref (heap e) (properties e))).
  assert (Hkeep : ∀ p, p ∈ kept → p ∈ list_all e).
  { intros p Hp. unfold kept, keep_other in Hp.
    apply list_elem_of_filter in Hp as [_ Hp]. exact Hp. }
  destruct (location_map e !! kd) as [b|] eqn:Hkd.
  - destruct (Hbuckets kd b Hkd) as [Hb Hbp].
    set (kept_b := keep_other property_id (deref (heap e ++ [kept]) b)).
    assert (Hsplit : heap e ++ [kept; kept_b] = (heap e ++ [kept]) ++ [kept_b])
      by (now rewrite <- app_assoc).
    assert (Hold : ∀ r, (r < length (heap e))%nat →
                        deref (heap e ++ [kept; kept_b]) r = deref (heap e) r).
    { intros r Hr. rewrite Hsplit.
      rewrite deref_alloc_old by (rewrite length_app; simpl; lia).
      now apply deref_alloc_old. }
    assert (Hnew : deref (heap e ++ [kept; kept_b]) (S (length (heap e))) = kept_b).
    { rewrite Hsplit.
      replace (S (length (heap e))) with (length (heap e ++ [kept]))
        by (rewrite length_app; simpl; lia).
      apply deref_alloc_new. }
    assert (Hall : list_all {| heap := heap e ++ [kept; kept_b];
                               properties := length (heap e);
                               location_map := <[kd := S (length (heap e))]> (location_map e);
                               id_map := delete property_id (id_map e);
                               next_id := next_id e |} = kept).
    { unfold list_all, get_all_properties. cbn [heap properties]. rewrite Hsplit.
      rewrite deref_alloc_old by (rewrite length_app; simpl; lia).
      apply deref_alloc_new. }
    split; [exact Hall|]. split; [|split; [reflexivity|split; [reflexivity|]]].
    + intros k. unfold bucket_of. cbn [location_map heap].
      destruct (decide (k = kd)) as [->|Hne].
      * rewrite lookup_insert_eq, Hkd, Hnew. unfold kept_b.
        now rewrite deref_alloc_old.
      * rewrite lookup_insert_ne by auto.
        destruct (location_map e !! k) as [r|] eqn:Hk; [|reflexivity].
        destruct (Hbuckets k r Hk) as [Hr Hrp]. now apply Hold.
    + constructor; cbn [heap properties location_map next_id].
      * rewrite length_app. simpl. lia.
      * intros k r Hk. rewrite length_app. simpl.
        destruct (decide (k = kd)) as [->|Hne].
        -- rewrite lookup_insert_eq in Hk. injection Hk as <-. lia.
        -- rewrite lookup_insert_ne in Hk by auto.
           destruct (Hbuckets k r Hk). lia.
      * intros k1 k2 r H1 H2.
        destruct (decide (k1 = kd)) as [->|Hne1], (decide (k2 = kd)) as [->|Hne2];
          auto.
        -- rewrite lookup_insert_eq in H1. rewrite lookup_insert_ne in H2 by auto.
           injection H1 as <-. destruct (Hbuckets k2 _ H2). lia.
        -- rewrite lookup_insert_eq in H2. rewrite lookup_insert_ne in H1 by auto.
           injection H2 as <-. destruct (Hbuckets k1 _ H1). lia.
        -- rewrite lookup_insert_ne in H1, H2 by auto. eauto.
      * intros p Hp. rewrite Hall in Hp. auto.
  - assert (Hall : list_all {| heap := heap e ++ [kept];
                               properties := length (heap e);
                               location_map := location_map e;
                               id_map := delete property_id (id_map e);
                               next_id := next_id e |} = kept).
    { unfold list_all, get_all_properties. cbn [heap properties].
      apply deref_alloc_new. }
    split; [exact Hall|]. split; [|split; [reflexivity|split; [reflexivity|]]].
    + intros k. unfold bucket_of. cbn [location_map heap].
      destruct (decide (k = kd)) as [->|Hne].
      * rewrite Hkd. reflexivity.
      * destruct (location_map e !! k) as [r|] eqn:Hk; [|reflexivity].
        destruct (Hbuckets k r Hk) as [Hr Hrp]. now apply deref_alloc_old.
    + constructor; cbn [heap properties location_map next_id].
      * rewrite length_app. simpl. lia.
      * intros k r Hk. rewrite length_app. simpl.
        destruct (Hbuckets k r Hk). lia.
      * exact Hdistinct.
      * intros p Hp. rewrite Hall in Hp. auto.
Qed.

Lemma add_keeps_views (e e1 : PropertyListingEngine) (new_property : Property) :
  views_agree e →
  (∀ p, p ∈ list_all e → id p < id new_property) →
  list_all e1 = list_all e ++ [new_property] →
  (∀ k, bucket_of e1 k
        = if decide (k = _hash_location (location new_property))
          then bucket_of e k ++ [new_property] else bucket_of e k) →
  id_map e1 = <[id new_property := new_property]> (id_map e) →
  views_agree e1.
Proof.
  intros [Ha Hb Hc Hd He Hf] Hfresh Hall Hbuckets Hidmap.
  assert (Hnew : new_property ∉ list_all e).
  { intros Hin. specialize (Hfresh _ Hin). lia. }
  constructor.
  - intros p. rewrite Hall, Hidmap, elem_of_app, list_elem_of_singleton. split.
    + intros [Hp| ->]; [|apply lookup_insert_eq].
      rewrite lookup_insert_ne by (specialize (Hfresh p Hp); lia).
      now apply Ha.
    + intros Hp. destruct (decide (id new_property = id p)) as [Heq|Hne].
      * rewrite Heq, lookup_insert_eq in Hp. injection Hp as ->. now right.
      * rewrite lookup_insert_ne in Hp by auto. left. now apply Ha.
  - intros p. rewrite Hall, Hbuckets, elem_of_app, list_elem_of_singleton.
    destruct (decide (_hash_location (location p) = _hash_location (location new_property)))
      as [Heq|Hne].
    + rewrite elem_of_app, list_elem_of_singleton, (Hb p), Heq. reflexivity.
    + rewrite (Hb p). split; [|tauto]. intros [Hp| ->]; [exact Hp|congruence].
  - intros k p. rewrite Hbuckets.
    destruct (decide (k = _hash_location (location new_property))) as [->|Hne].
    + rewrite elem_of_app, list_elem_of_singleton. intros [Hp| ->]; [|reflexivity].
      now apply Hc.
    + apply Hc.
  - rewrite Hall. apply NoDup_app. split; [exact Hd|]. split; [|apply NoDup_singleton].
    intros p Hp Hp'. apply list_elem_of_singleton in Hp'. subst p. contradiction.
  - intros k. rewrite Hbuckets.
    destruct (decide (k = _hash_location (location new_property))) as [->|Hne]; [|apply He].
    apply NoDup_app. split; [apply He|]. split; [|apply NoDup_singleton].
    intros p Hp Hp'. apply list_elem_of_singleton in Hp'. subst p.
    apply Hnew. now apply Hb.
  - intros i p. rewrite Hidmap, Hall, elem_of_app, list_elem_of_singleton.
    destruct (decide (id new_property = i)) as [<-|Hne].
    + rewrite lookup_insert_eq. intros [= <-]. auto.
    + rewrite lookup_insert_ne by auto. intros Hp.
      destruct (Hf i p Hp). auto.
Qed.

Lemma delete_keeps_views (e e1 : PropertyListingEngine) (property_id : Z)
    (deleted_property : Property) :
  views_agree e →
  id_map e !! property_id = Some deleted_property →
  list_all e1 = keep_other property_id (list_all e) →
  (∀ k, bucket_of e1 k
        = if decide (k = _hash_location (location deleted_property))
          then keep_other property_id (bucket_of e k) else bucket_of e k) →
  id_map e1 = delete property_id (id_map e) →
  views_agree e1.
Proof.
  intros [Ha Hb Hc Hd He Hf] Hdel Hall Hbuckets Hidmap.
  assert (Hkeep : ∀ l p, p ∈ keep_other property_id l ↔ id p ≠ property_id ∧ p ∈ l).
  { intros l p. unfold keep_other.
    exact (list_elem_of_filter (fun prop => id prop ≠ property_id) l p). }
  constructor.
  - intros p. rewrite Hall, Hidmap, Hkeep, lookup_delete_Some, (Ha p).
    split; intros [H1 H2]; split; auto.
  - intros p. rewrite Hall, Hbuckets, Hkeep.
    destruct (decide (_hash_location (location p) = _hash_location (location deleted_property)))
      as [Heq|Hne].
    + rewrite Hkeep, (Hb p), Heq. reflexivity.
    + rewrite (Hb p). split; [tauto|]. intros Hp. split; [|exact Hp].
      intros Hid. apply Hb, Ha in Hp. rewrite Hid, Hdel in Hp.
      injection Hp as ->. congruence.
  - intros k p. rewrite Hbuckets.
    destruct (decide (k = _hash_location (location deleted_property))) as [->|Hne].
    + rewrite Hkeep. intros [_ Hp]. now apply Hc.
    + apply Hc.
  - rewrite Hall. unfold keep_other. now apply NoDup_filter.
  - intros k. rewrite Hbuckets.
    destruct (decide (k = _hash_location (location deleted_property))); [|apply He].
    unfold keep_other. apply NoDup_filter, He.
  - intros i p. rewrite Hidmap, Hall, Hkeep, lookup_delete_Some.
    intros [Hne Hp]. destruct (Hf i p Hp) as [Hid Hin]. subst i. auto.
Qed.

Lemma step_keeps_views (e : PropertyListingEngine) (o : op) :
  views_agree e → store_ok e →
  ∃ out e1, step e o = Ok (out, e1) ∧ views_agree e1 ∧ store_ok e1.
Proof.
  intros Hv Hs. destruct o as [title location price property_type | property_id];
    cbn [step].
  - destruct (add_property_effect e title location price property_type Hs)
      as (e1 & Hadd & Hall & Hbuckets & Hidmap & Hnext & Hs1).
    rewrite Hadd. cbn [mbind Res_bind]. eexists _, e1.
    split; [reflexivity|]. split; [|exact Hs1].
    apply (add_keeps_views e e1
             (mkProperty (next_id e) title location price property_type)); auto.
    intros p Hp. simpl. now apply (ids_below_counter e Hs).
  - destruct (id_map e !! property_id) as [d|] eqn:Hd.
    + destruct (delete_property_effect e property_id d Hs Hd)
        as (e1 & Hdel & Hall & Hbuckets & Hidmap & Hnext & Hs1).
      rewrite Hdel. cbn [mbind Res_bind]. eexists _, e1.
      split; [reflexivity|]. split; [|exact Hs1].
      now apply (delete_keeps_views e e1 property_id d).
    + rewrite (delete_property_absent e property_id Hd). cbn [mbind Res_bind].
      eexists _, e. auto.
Qed.

Lemma run_keeps_views (ops : list op) :
  ∀ e, views_agree e → store_ok e →
       ∃ outs e', run ops e = Ok (outs, e') ∧ views_agree e' ∧ store_ok e'.
Proof.
  induction ops as [|o ops IH]; intros e Hv Hs.
  - exists [], e. auto.
  - cbn [run]. destruct (step_keeps_views e o Hv Hs) as (out & e1 & Hstep & Hv1 & Hs1).
    rewrite Hstep. cbn [mbind Res_bind].
    destruct (IH e1 Hv1 Hs1) as (outs & e' & Hrun & Hv' & Hs').
    rewrite Hrun. cbn [mbind Res_bind]. eexists _, e'. auto.
Qed.

(** C2.  After every finite sequence of adds and deletes on a new engine
    the three views agree: a record is in the primary collection if and
    only if its id maps to it in the id view, if and only if it is in the
    bucket keyed by the hash of its own location; it is in no other
    bucket and occurs once in the primary collection and once in its
    bucket; and every entry of the id view is keyed by the id of its
    record, which is in the primary collection. *)
Theorem views_agree_after_run (ops : list op) (h : Heap) :
  ∃ outs e,
    run ops (__init__ h) = Ok (outs, e)
    ∧ (∀ p, p ∈ list_all e ↔ id_map e !! id p = Some p)
    ∧ (∀ p, p ∈ list_all e ↔ p ∈ bucket_of e (_hash_location (location p)))
    ∧ (∀ k p, p ∈ bucket_of e k → k = _hash_location (location p))
    ∧ NoDup (list_all e)
    ∧ (∀ k, NoDup (bucket_of e k))
    ∧ (∀ i p, id_map e !! i = Some p → id p = i ∧ p ∈ list_all e).
Proof.
  destruct (init_views h) as [Hv Hs].
  destruct (run_keeps_views ops (__init__ h) Hv Hs) as (outs & e & Hrun & [Ha Hb Hc Hd He Hf] & _).
  exists outs, e. split; [exact Hrun|]. split; [exact Ha|]. split; [exact Hb|].
  split; [exact Hc|]. split; [exact Hd|]. split; [exact He|exact Hf].
Qed.

(** ** Termination *)

Lemma py_get_no_fuel {A} (l : list A) (i : Z) : py_get l i ≠ OutOfFuel.
Proof.
  unfold py_get. destruct (py_norm_index (py_len l) i) as [k|]; [|discriminate].
  destruct (l !! k); discriminate.
Qed.

Lemma py_set_no_fuel {A} (l : list A) (i : Z) (x : A) : py_set l i x ≠ OutOfFuel.
Proof.
  unfold py_set. destruct (py_norm_index (py_len l) i); discriminate.
Qed.

Lemma py_swap_no_fuel {A} (l : list A) (i j : Z) : py_swap l i j ≠ OutOfFuel.
Proof.
  unfold py_swap.
  destruct (py_get l j) as [xj| | |] eqn:Hj; cbn [mbind Res_bind]; try discriminate.
  - destruct (py_get l i) as [xi| | |] eqn:Hi; cbn [mbind Res_bind]; try discriminate.
    + destruct (py_set l i xj) as [l1| | |] eqn:Hs; cbn [mbind Res_bind];
        try discriminate.
      * apply py_set_no_fuel.
      * now apply py_set_no_fuel in Hs.
    + now apply py_get_no_fuel in Hi.
  - now apply py_get_no_fuel in Hj.
Qed.

Lemma partition_loop_bounds (pv : Z) (currents : list Z) :
  ∀ items left_pointer,
    match partition_loop currents pv items left_pointer with
    | Ok (_, left_pointer') =>
        left_pointer <= left_pointer' <= left_pointer + py_len currents
    | OutOfFuel => False
    | _ => True
    end.
Proof.
  induction currents as [|current rest IH]; intros items lp; cbn [partition_loop].
  - unfold py_len. simpl. lia.
  - destruct (py_get items current) as [x| | |] eqn:Hx; cbn [mbind Res_bind]; auto.
    + destruct (price x <=? pv).
      * destruct (py_swap items lp current) as [items1| | |] eqn:Hs;
          cbn [mbind Res_bind]; auto.
        -- specialize (IH items1 (lp + 1)).
           destruct (partition_loop rest pv items1 (lp + 1)) as [[? lp']| | |]; auto.
           unfold py_len in *. simpl. lia.
        -- now apply py_swap_no_fuel in Hs.
      * specialize (IH items lp).
        destruct (partition_loop rest pv items lp) as [[? lp']| | |]; auto.
        unfold py_len in *. simpl. lia.
    + now apply py_get_no_fuel in Hx.
Qed.

Lemma py_range_length (low high : Z) : py_len (py_range low high) = Z.max 0 (high - low).
Proof.
  unfold py_len, py_range. rewrite length_map, length_seq. lia.
Qed.

(** The pivot comes to rest inside the range, whatever the list. *)
Lemma partition_bounds (items : list Property) (low high : Z) :
  low < high →
  match partition items low high with
  | Ok (_, left_pointer) => low <= left_pointer <= high
  | OutOfFuel => False
  | _ => True
  end.
Proof.
  intros Hlt. unfold partition.
  destruct (py_swap items ((low + high) / 2) high) as [items1| | |] eqn:Hs1;
    cbn [mbind Res_bind]; auto; [|now apply py_swap_no_fuel in Hs1].
  destruct (py_get items1 high) as [pivot| | |] eqn:Hg;
    cbn [mbind Res_bind]; auto; [|now apply py_get_no_fuel in Hg].
  pose proof (partition_loop_bounds (price pivot) (py_range low high) items1 low) as Hb.
  destruct (partition_loop (py_range low high) (price pivot) items1 low)
    as [[items2 lp]| | |]; cbn [mbind Res_bind]; auto.
  rewrite py_range_length in Hb.
  destruct (py_swap items2 lp high) as [items3| | |] eqn:Hs2;
    cbn [mbind Res_bind]; auto; [lia|now apply py_swap_no_fuel in Hs2].
Qed.

(** The fuel given to a range always suffices, on every list and for
    every pair of bounds. *)
Lemma quick_sort_fuel_enough (fuel : nat) :
  ∀ items low high,
    (range_size low high <= fuel)%nat →
    quick_sort_fuel fuel items low high ≠ OutOfFuel.
Proof.
  unfold range_size.
  induction fuel as [|fuel IH]; intros items low high Hfuel;
    rewrite quick_sort_fuel_eq;
    destruct (Z.geb_spec low high) as [Hge|Hlt]; try discriminate.
  - lia.
  - pose proof (partition_bounds items low high Hlt) as Hb.
    destruct (partition items low high) as [[items3 lp]| | |];
      cbn [mbind Res_bind]; try discriminate; [|contradiction].
    destruct (quick_sort_fuel fuel items3 low (lp - 1)) as [items4| | |] eqn:H1;
      cbn [mbind Res_bind]; try discriminate.
    + apply IH. lia.
    + exfalso. apply (IH items3 low (lp - 1)); [lia|exact H1].
Qed.

Lemma quick_sort_in_bounds (items : list Property) (low high : Z) :
  0 <= low → high < py_len items →
  ∃ items', _quick_sort_by_price items low high = Ok items'
            ∧ Permutation items items'.
Proof.
  intros Hlow Hhigh. unfold _quick_sort_by_price.
  destruct (Z.lt_ge_cases low high) as [Hlt|Hge].
  - set (pre := take (Z.to_nat low) items).
    set (seg := take (Z.to_nat (high - low + 1)) (drop (Z.to_nat low) items)).
    set (post := drop (Z.to_nat (high - low + 1)) (drop (Z.to_nat low) items)).
    assert (Hitems : items = pre ++ seg ++ post).
    { unfold pre, seg, post. now rewrite !take_drop. }
    assert (Hpre : py_len pre = low).
    { unfold pre, py_len in *. rewrite length_take. lia. }
    assert (Hseg : py_len seg = high - low + 1).
    { unfold seg, py_len in *. rewrite length_take, length_drop. lia. }
    clearbody pre seg post.
    destruct (quick_sort_fuel_spec (Z.to_nat (high - low)) pre seg post)
      as (seg' & Hq & Hp & _).
    { unfold py_len in Hseg. lia. }
    rewrite Hpre, Hseg in Hq.
    replace (low + (high - low + 1) - 1) with high in Hq by lia.
    rewrite Hitems, Hq. eexists. split; [reflexivity|].
    now rewrite Hp.
  - rewrite quick_sort_fuel_eq.
    destruct (Z.geb_spec low high); [|lia]. eauto.
Qed.

Lemma min_price_loop_total (l : list Property) (min_price : Z) (fuel : nat) :
  ∀ left right result,
    0 <= left → right < py_len l → (window left right <= fuel)%nat →
    ∃ r, min_price_loop fuel l min_price left right result = Ok r.
Proof.
  unfold window.
  induction fuel as [|fuel IH]; intros left right result H0 Hr Hfuel;
    rewrite min_price_loop_eq;
    destruct (Z.leb_spec left right) as [Hle|Hgt]; eauto; [lia|].
  pose proof (midpoint_between left right Hle) as Hmid.
  cbv zeta. destruct (py_get_in_range l ((left + right) / 2)) as (x & _ & Hget); [lia|].
  rewrite Hget. cbn [mbind Res_bind].
  destruct (price x >=? min_price); apply IH; lia.
Qed.

Lemma max_price_loop_total (l : list Property) (max_price : Z) (fuel : nat) :
  ∀ left right result,
    0 <= left → right < py_len l → (window left right <= fuel)%nat →
    ∃ r, max_price_loop fuel l max_price left right result = Ok r.
Proof.
  unfold window.
  induction fuel as [|fuel IH]; intros left right result H0 Hr Hfuel;
    rewrite max_price_loop_eq;
    destruct (Z.leb_spec left right) as [Hle|Hgt]; eauto; [lia|].
  pose proof (midpoint_between left right Hle) as Hmid.
  cbv zeta. destruct (py_get_in_range l ((left + right) / 2)) as (x & _ & Hget); [lia|].
  rewrite Hget. cbn [mbind Res_bind].
  destruct (price x <=? max_price); apply IH; lia.
Qed.

(** C10.  The three recursions are total.  Quicksort: the fuel given to
    a range is never exhausted, on any list and for any bounds; within
    the bounds of the list the call returns a list; and the pivot comes
    to rest inside the range, so both recursive calls are on strictly
    smaller ranges.  Boundary searches: each returns an index on every
    list, sorted or not, and every iteration strictly shrinks the window
    [left..right], whichever branch is taken. *)
Theorem sort_and_search_terminate (items : list Property) (low high bound : Z) :
  _quick_sort_by_price items low high ≠ OutOfFuel
  ∧ (0 <= low → high < py_len items →
     ∃ items', _quick_sort_by_price items low high = Ok items')
  ∧ (∀ items' left_pointer,
       low < high → partition items low high = Ok (items', left_pointer) →
       low <= left_pointer <= high
       ∧ (range_size low (left_pointer - 1) < range_size low high)%nat
       ∧ (range_size (left_pointer + 1) high < range_size low high)%nat)
  ∧ (∃ r, _binary_search_min_price items bound = Ok r)
  ∧ (∃ r, _binary_search_max_price items bound = Ok r)
  ∧ (∀ left right,
       left <= right →
       (window left ((left + right) / 2 - 1) < window left right)%nat
       ∧ (window ((left + right) / 2 + 1) right < window left right)%nat).
Proof.
  split; [|split; [|split; [|split; [|split]]]].
  - unfold _quick_sort_by_price. apply quick_sort_fuel_enough.
    unfold range_size. lia.
  - intros Hlow Hhigh.
    destruct (quick_sort_in_bounds items low high Hlow Hhigh) as (items' & Hq & _).
    eauto.
  - intros items' lp Hlt Hpart.
    pose proof (partition_bounds items low high Hlt) as Hb.
    rewrite Hpart in Hb. unfold range_size. lia.
  - unfold _binary_search_min_price. apply min_price_loop_total;
      unfold window, py_len; lia.
  - unfold _binary_search_max_price. apply max_price_loop_total;
      unfold window, py_len; lia.
  - intros left right Hle.
    pose proof (midpoint_between left right Hle) as Hmid.
    unfold window. lia.
Qed.

Lemma sort_and_search_terminate_sample :
  (0 <= 0 ∧ 2 < py_len sample_listings)
  ∧ (∃ items', _quick_sort_by_price sample_listings 0 2 = Ok items')
  ∧ (0 < 2 ∧ ∃ items' left_pointer,
       partition sample_listings 0 2 = Ok (items', left_pointer)
       ∧ 0 <= left_pointer <= 2)
  ∧ (0 <= 2
     ∧ (window 0 ((0 + 2) / 2 - 1) < window 0 2)%nat
     ∧ (window ((0 + 2) / 2 + 1) 2 < window 0 2)%nat).
Proof.
  pose proof (sort_and_search_terminate sample_listings 0 2 250)
    as (_ & Hsort & Hpart & _ & _ & Hwin).
  assert (H0 : 0 <= 0) by lia.
  assert (H2 : 2 < py_len sample_listings) by (vm_compute; reflexivity).
  assert (H02 : 0 < 2) by lia.
  assert (Hle : 0 <= 2) by lia.
  split; [split; [exact H0|exact H2]|].
  split; [exact (Hsort H0 H2)|].
  split.
  - split; [exact H02|].
    eexists _, _. split; [vm_compute; reflexivity|].
    refine (proj1 (Hpart _ _ H02 _)). vm_compute. reflexivity.
  - split; [exact Hle|]. exact (Hwin 0 2 Hle).
Defined.

(** ** The scenario of the specification *)

Lemma search_by_price_range_austin :
  150000 <= 300000
  ∧ ∃ r e',
      search_by_price_range austin_engine 150000 300000 = Ok (r, e')
      ∧ Permutation (deref (heap e') r)
          (filter (in_price_range 150000 300000) (list_all austin_engine))
      ∧ sorted_by_price (deref (heap e') r)
      ∧ ((∀ x, x ∈ list_all austin_engine → price x < 150000)
         ∨ (∀ x, x ∈ list_all austin_engine → 300000 < price x) →
         deref (heap e') r = []).
Proof.
  assert (H : 150000 <= 300000) by lia.
  split; [exact H|].
  exact (search_by_price_range_correct austin_engine 150000 300000 H).
Defined.

Lemma search_by_price_range_inverted_austin :
  300000 > 150000
  ∧ ∃ r e',
      search_by_price_range austin_engine 300000 150000 = Ok (r, e')
      ∧ deref (heap e') r = [].
Proof.
  assert (H : 300000 > 150000) by lia.
  split; [exact H|].
  exact (search_by_price_range_inverted austin_engine 300000 150000 H).
Defined.

(* ===================================================================== *)
(** * Further properties of the engine *)
(* ===================================================================== *)

(** ** What every reachable state satisfies *)

Lemma filter_same_key_snoc (k : Z) (l : list Property) (x : Property) :
  filter (same_key k) (l ++ [x])
  = if decide (k = _hash_location (location x))
    then filter (same_key k) l ++ [x] else filter (same_key k) l.
Proof.
  rewrite filter_app.
  destruct (decide (k = _hash_location (location x))) as [->|Hne].
  - rewrite (filter_cons_True (same_key _)) by reflexivity. reflexivity.
  - rewrite (filter_cons_False (same_key k)) by (unfold same_key; congruence).
    rewrite filter_nil. apply app_nil_r.
Qed.

Lemma keep_other_filter_comm (P : Property → Prop) `{∀ x, Decision (P x)}
    (i : Z) (l : list Property) :
  filter P (keep_other i l) = keep_other i (filter P l).
Proof.
  unfold keep_other. induction l as [|x l IH]; [reflexivity|].
  destruct (decide (id x ≠ i)) as [Hi|Hi], (decide (P x)) as [Hp|Hp].
  - rewrite (filter_cons_True (fun prop => id prop ≠ i) x l) by assumption.
    rewrite !(filter_cons_True P) by assumption.
    rewrite (filter_cons_True (fun prop => id prop ≠ i)) by assumption.
    now rewrite IH.
  - rewrite (filter_cons_True (fun prop => id prop ≠ i) x l) by assumption.
    rewrite !(filter_cons_False P) by assumption. exact IH.
  - rewrite (filter_cons_False (fun prop => id prop ≠ i) x l) by assumption.
    rewrite (filter_cons_True P) by assumption.
    rewrite (filter_cons_False (fun prop => id prop ≠ i)) by assumption. exact IH.
  - rewrite (filter_cons_False (fun prop => id prop ≠ i) x l) by assumption.
    rewrite (filter_cons_False P) by assumption. exact IH.
Qed.

Lemma keep_other_absent (i : Z) (l : list Property) :
  (∀ p, p ∈ l → id p ≠ i) → keep_other i l = l.
Proof.
  intros H. unfold keep_other. apply filter_all.
  apply list.Forall_forall. exact H.
Qed.

Lemma ids_sorted_snoc (l : list Property) (x : Property) :
  StronglySorted Z.lt (map id l) → (∀ p, p ∈ l → id p < id x) →
  StronglySorted Z.lt (map id (l ++ [x])).
Proof.
  intros Hs Hx. induction l as [|a l IH]; simpl.
  - repeat constructor.
  - inversion Hs as [|? ? Hs' Ha]; subst. constructor.
    + apply IH; [exact Hs'|]. intros p Hp. apply Hx. now right.
    + rewrite map_app. apply Forall_app. split; [exact Ha|].
      repeat constructor. apply Hx. now left.
Qed.

Lemma ids_sorted_filter (P : Property → Prop) `{∀ x, Decision (P x)}
    (l : list Property) :
  StronglySorted Z.lt (map id l) → StronglySorted Z.lt (map id (filter P l)).
Proof.
  induction l as [|a l IH]; intros Hs; [constructor|].
  inversion Hs as [|? ? Hs' Ha]; subst.
  destruct (decide (P a)) as [Hp|Hp].
  - rewrite filter_cons_True by assumption. simpl. constructor; [now apply IH|].
    rewrite list.Forall_forall in *. intros i Hi.
    apply list_elem_of_In, in_map_iff in Hi as (p & <- & Hp').
    apply list_elem_of_In, list_elem_of_filter in Hp' as [_ Hp'].
    apply Ha. apply list_elem_of_In, in_map_iff. exists p.
    split; [reflexivity|]. now apply list_elem_of_In.
  - rewrite filter_cons_False by assumption. now apply IH.
Qed.

Lemma init_engine_ok (h : Heap) : engine_ok (__init__ h).
Proof.
  destruct (init_views h) as [Hv Hs].
  assert (Hall : list_all (__init__ h) = []).
  { unfold list_all, get_all_properties, __init__, alloc. cbn [heap properties].
    apply deref_alloc_new. }
  constructor; auto.
  - intros k. rewrite Hall. apply bucket_of_None. apply lookup_empty.
  - rewrite Hall. constructor.
  - intros p Hp. rewrite Hall in Hp. inversion Hp.
  - cbn. lia.
Qed.

Lemma heap_grow_list_all (e : PropertyListingEngine) (hs : Heap) :
  store_ok e → list_all (set_heap e (heap e ++ hs)) = list_all e.
Proof.
  intros Hs. unfold list_all, get_all_properties, deref. cbn [heap properties set_heap].
  rewrite lookup_app_l by apply (properties_allocated e Hs). reflexivity.
Qed.

Lemma heap_grow_bucket_of (e : PropertyListingEngine) (hs : Heap) (k : Z) :
  store_ok e → bucket_of (set_heap e (heap e ++ hs)) k = bucket_of e k.
Proof.
  intros Hs. unfold bucket_of, deref. cbn [heap location_map set_heap].
  destruct (location_map e !! k) as [r|] eqn:Hk; [|reflexivity].
  rewrite lookup_app_l by apply (buckets_allocated e Hs k r Hk). reflexivity.
Qed.

(** Allocating further list objects keeps a state in order. *)
Lemma heap_grow_engine_ok (e : PropertyListingEngine) (hs : Heap) :
  engine_ok e → engine_ok (set_heap e (heap e ++ hs)).
Proof.
  intros [Hv Hs Hb Hi Hpos Hc].
  pose proof (heap_grow_list_all e hs Hs) as Hall.
  pose proof (fun k => heap_grow_bucket_of e hs k Hs) as Hbk.
  destruct Hv as [Ha Hb' Hc' Hd He Hf].
  constructor.
  - constructor; try setoid_rewrite Hall; try setoid_rewrite Hbk; auto.
  - destruct Hs as [H1 H2 H3 H4].
    constructor; cbn [heap properties location_map next_id set_heap].
    + rewrite length_app. lia.
    + intros k r Hk. rewrite length_app. destruct (H2 k r Hk). split; [lia|auto].
    + exact H3.
    + intros p Hp. rewrite Hall in Hp. auto.
  - intros k. now rewrite Hbk, Hall.
  - now rewrite Hall.
  - intros p. rewrite Hall. apply Hpos.
  - exact Hc.
Qed.

Lemma add_engine_ok (e : PropertyListingEngine)
    (title location : string) (price : Z) (property_type : string) :
  engine_ok e →
  ∃ e1, add_property e title location price property_type = Ok (next_id e, e1)
        ∧ engine_ok e1.
Proof.
  intros [Hv Hs Hb Hi Hpos Hc].
  destruct (add_property_effect e title location price property_type Hs)
    as (e1 & Hadd & Hall & Hbuckets & Hidmap & Hnext & Hs1).
  set (new_property := mkProperty (next_id e) title location price property_type) in *.
  assert (Hfresh : ∀ p, p ∈ list_all e → id p < id new_property)
    by (intros p Hp; simpl; now apply (ids_below_counter e Hs)).
  exists e1. split; [exact Hadd|].
  constructor; auto.
  - now apply (add_keeps_views e e1 new_property).
  - intros k. rewrite Hbuckets, Hall, filter_same_key_snoc, Hb. reflexivity.
  - rewrite Hall. now apply ids_sorted_snoc.
  - intros p. rewrite Hall, elem_of_app, list_elem_of_singleton.
    intros [Hp| ->]; [now apply Hpos|exact Hc].
  - lia.
Qed.

Lemma delete_engine_ok (e : PropertyListingEngine) (property_id : Z) :
  engine_ok e →
  ∃ found e1, delete_property e property_id = Ok (found, e1) ∧ engine_ok e1.
Proof.
  intros Hok. pose proof Hok as [Hv Hs Hb Hi Hpos Hc].
  destruct (id_map e !! property_id) as [d|] eqn:Hd.
  - destruct (delete_property_effect e property_id d Hs Hd)
      as (e1 & Hdel & Hall & Hbuckets & Hidmap & Hnext & Hs1).
    exists true, e1. split; [exact Hdel|].
    constructor; auto.
    + now apply (delete_keeps_views e e1 property_id d).
    + intros k. rewrite Hbuckets, Hall, keep_other_filter_comm, Hb.
      destruct (decide (k = _hash_location (location d))) as [->|Hne]; [reflexivity|].
      symmetry. apply keep_other_absent. intros p Hp Hid.
      apply list_elem_of_filter in Hp as [Hk Hp].
      apply (primary_iff_id_view e Hv) in Hp. rewrite Hid, Hd in Hp.
      injection Hp as ->. unfold same_key in Hk. congruence.
    + rewrite Hall. unfold keep_other. now apply ids_sorted_filter.
    + intros p. rewrite Hall. unfold keep_other. rewrite list_elem_of_filter.
      intros [_ Hp]. now apply Hpos.
    + lia.
  - exists false, e. split; [now apply delete_property_absent|exact Hok].
Qed.

Lemma search_by_location_eq (e : PropertyListingEngine) (location : string) :
  search_by_location e location
  = match location_map e !! _hash_location location with
    | Some bucket => (bucket, e)
    | None => (length (heap e), set_heap e (heap e ++ [[]]))
    end.
Proof. reflexivity. Qed.

Lemma exec_engine_ok (e : PropertyListingEngine) (c : call) :
  engine_ok e → ∃ v e1, exec e c = Ok (v, e1) ∧ engine_ok e1.
Proof.
  intros Hok. destruct c as [title location price property_type | property_id
                            | location | min_price max_price | ascending | ];
    cbn [exec].
  - destruct (add_engine_ok e title location price property_type Hok) as (e1 & Hadd & Hok1).
    rewrite Hadd. cbn [mbind Res_bind]. eauto.
  - destruct (delete_engine_ok e property_id Hok) as (found & e1 & Hdel & Hok1).
    rewrite Hdel. cbn [mbind Res_bind]. eauto.
  - rewrite search_by_location_eq.
    destruct (location_map e !! _hash_location location); eexists _, _;
      (split; [reflexivity|]); [exact Hok|now apply heap_grow_engine_ok].
  - destruct (search_by_price_range_spec e min_price max_price) as (sorted & _ & _ & Hq).
    rewrite Hq. cbn [mbind Res_bind]. eexists _, _. split; [reflexivity|].
    now apply heap_grow_engine_ok.
  - destruct (sort_properties_by_price_spec e) as (sorted & _ & _ & Hasc & Hdesc).
    destruct ascending.
    + rewrite Hasc. cbn [mbind Res_bind]. eexists _, _. split; [reflexivity|].
      now apply heap_grow_engine_ok.
    + rewrite Hdesc. destruct (decide (list_all e = [])); cbn [mbind Res_bind];
        eexists _, _; (split; [reflexivity|]); now apply heap_grow_engine_ok.
  - eauto.
Qed.

Lemma session_engine_ok (calls : list call) :
  ∀ e, engine_ok e → ∃ vs e', session calls e = Ok (vs, e') ∧ engine_ok e'.
Proof.
  induction calls as [|c calls IH]; intros e Hok.
  - exists [], e. auto.
  - cbn [session]. destruct (exec_engine_ok e c Hok) as (v & e1 & Hexec & Hok1).
    rewrite Hexec. cbn [mbind Res_bind].
    destruct (IH e1 Hok1) as (vs & e' & Hs & Hok').
    rewrite Hs. cbn [mbind Res_bind]. eauto.
Qed.

Lemma reachable_engine_ok (e : PropertyListingEngine) : reachable e → engine_ok e.
Proof.
  intros (calls & h & vs & Hrun).
  destruct (session_engine_ok calls (__init__ h) (init_engine_ok h))
    as (vs' & e' & Hs & Hok).
  rewrite Hrun in Hs. now injection Hs as <- <-.
Qed.

(** ** Sessions *)

(** X1.  No sequence of public calls on a new engine raises: every call
    returns a value, and in the state reached the three views agree,
    queries interleaved or not. *)
Theorem session_never_raises (calls : list call) (h : Heap) :
  ∃ vs e,
    session calls (__init__ h) = Ok (vs, e)
    ∧ views_agree e
    ∧ (∀ k, bucket_of e k = filter (same_key k) (list_all e)).
Proof.
  destruct (session_engine_ok calls (__init__ h) (init_engine_ok h))
    as (vs & e & Hs & Hok).
  exists vs, e. split; [exact Hs|].
  split; [apply (ok_views e Hok)|apply (ok_buckets e Hok)].
Qed.

(** ** search_by_location *)

(** X2.  In a reachable state, a location search returns exactly the live
    records whose location has the same key as the query, in insertion
    order; the empty list when there is none. *)
Theorem search_by_location_spec (e : PropertyListingEngine) (location : string) :
  reachable e →
  ∃ r e',
    search_by_location e location = (r, e')
    ∧ deref (heap e') r
      = filter (same_key (_hash_location location)) (list_all e).
Proof.
  intros Hr. apply reachable_engine_ok in Hr.
  pose proof (ok_buckets e Hr (_hash_location location)) as Hb.
  rewrite search_by_location_eq. unfold bucket_of in Hb.
  destruct (location_map e !! _hash_location location) as [b|].
  - exists b, e. auto.
  - eexists _, _. split; [reflexivity|]. cbn [heap set_heap].
    now rewrite deref_alloc_new.
Qed.

Lemma search_by_location_austin :
  reachable austin_engine
  ∧ ∃ r e',
      search_by_location austin_engine "AUSTIN" = (r, e')
      ∧ deref (heap e') r
        = filter (same_key (_hash_location "AUSTIN")) (list_all austin_engine).
Proof.
  assert (H : reachable austin_engine).
  { exists austin_calls, [], [IdValue 1; IdValue 2]. vm_compute. reflexivity. }
  split; [exact H|].
  exact (search_by_location_spec austin_engine "AUSTIN" H).
Defined.

(** ** Ids of the live records *)

(** X3.  In a reachable state the primary collection lists the live
    records by strictly increasing id, and every id is at least 1 and
    below the counter. *)
Theorem live_ids_increasing (e : PropertyListingEngine) :
  reachable e →
  StronglySorted Z.lt (map id (list_all e))
  ∧ ∀ p, p ∈ list_all e → 1 <= id p < next_id e.
Proof.
  intros Hr. apply reachable_engine_ok in Hr. split; [apply (ok_ids e Hr)|].
  intros p Hp. split; [now apply (ok_ids_positive e Hr)|].
  now apply (ids_below_counter e (ok_store e Hr)).
Qed.

Lemma live_ids_increasing_austin :
  reachable austin_engine
  ∧ StronglySorted Z.lt (map id (list_all austin_engine))
  ∧ ∀ p, p ∈ list_all austin_engine → 1 <= id p < next_id austin_engine.
Proof.
  assert (H : reachable austin_engine).
  { exists austin_calls, [], [IdValue 1; IdValue 2]. vm_compute. reflexivity. }
  split; [exact H|].
  exact (live_ids_increasing austin_engine H).
Defined.

(** ** Adds and deletes on a reachable state *)

Lemma keep_other_below (i : Z) (l : list Property) :
  (∀ p, p ∈ l → id p < i) → keep_other i l = l.
Proof.
  intros H. apply keep_other_absent. intros p Hp. specialize (H p Hp). lia.
Qed.

Lemma keep_other_snoc_self (l : list Property) (x : Property) :
  (∀ p, p ∈ l → id p < id x) → keep_other (id x) (l ++ [x]) = l.
Proof.
  intros H. unfold keep_other. rewrite filter_app.
  rewrite (filter_cons_False (fun prop => id prop ≠ id x)) by auto.
  rewrite filter_nil, app_nil_r. now apply keep_other_below.
Qed.

(** X4.  Adding a record and then deleting the id the add returned
    restores the contents of the primary collection, of every bucket and
    of the id view; only the counter has moved on, so the id is not given
    again. *)
Theorem add_then_delete_round_trip (e : PropertyListingEngine)
    (title location : string) (price : Z) (property_type : string) :
  reachable e →
  ∃ i e1 e2,
    add_property e title location price property_type = Ok (i, e1)
    ∧ delete_property e1 i = Ok (true, e2)
    ∧ list_all e2 = list_all e
    ∧ (∀ k, bucket_of e2 k = bucket_of e k)
    ∧ id_map e2 = id_map e
    ∧ next_id e2 = next_id e + 1.
Proof.
  intros Hr. apply reachable_engine_ok in Hr.
  pose proof Hr as [Hv Hs Hb Hi Hpos Hc].
  destruct (add_property_effect e title location price property_type Hs)
    as (e1 & Hadd & Hall & Hbuckets & Hidmap & Hnext & Hs1).
  set (new_property := mkProperty (next_id e) title location price property_type) in *.
  assert (Hlook : id_map e1 !! next_id e = Some new_property)
    by (rewrite Hidmap; apply lookup_insert_eq).
  destruct (delete_property_effect e1 (next_id e) new_property Hs1 Hlook)
    as (e2 & Hdel & Hall2 & Hbuckets2 & Hidmap2 & Hnext2 & Hs2).
  assert (Hfresh : ∀ p, p ∈ list_all e → id p < id new_property)
    by (intros p Hp; simpl; now apply (ids_below_counter e Hs)).
  exists (next_id e), e1, e2. split; [exact Hadd|]. split; [exact Hdel|].
  split; [|split; [|split]].
  - rewrite Hall2, Hall. exact (keep_other_snoc_self (list_all e) new_property Hfresh).
  - intros k. rewrite Hbuckets2, Hbuckets.
    match goal with
    | |- context [_hash_location (?f new_property)] =>
        change (f new_property) with location
    end.
    destruct (decide (k = _hash_location location)) as [->|Hne]; [|reflexivity].
    apply (keep_other_snoc_self _ new_property).
    intros p Hp. apply Hfresh. rewrite Hb in Hp.
    apply list_elem_of_filter in Hp as [_ Hp]. exact Hp.
  - rewrite Hidmap2, Hidmap. apply delete_insert_id.
    destruct (id_map e !! next_id e) as [p|] eqn:Hp; [|reflexivity].
    destruct (id_view_in_primary e Hv _ _ Hp) as [Hid Hin].
    pose proof (ids_below_counter e Hs p Hin). lia.
  - lia.
Qed.

Lemma add_then_delete_austin :
  reachable austin_engine
  ∧ ∃ i e1 e2,
      add_property austin_engine "C" "Dallas" 90000 "plot" = Ok (i, e1)
      ∧ delete_property e1 i = Ok (true, e2)
      ∧ list_all e2 = list_all austin_engine
      ∧ (∀ k, bucket_of e2 k = bucket_of austin_engine k)
      ∧ id_map e2 = id_map austin_engine
      ∧ next_id e2 = next_id austin_engine + 1.
Proof.
  assert (H : reachable austin_engine).
  { exists austin_calls, [], [IdValue 1; IdValue 2]. vm_compute. reflexivity. }
  split; [exact H|].
  exact (add_then_delete_round_trip austin_engine "C" "Dallas" 90000 "plot" H).
Defined.

(** X5.  In a reachable state, deleting the id of a live record removes
    exactly that record: the primary collection loses one element, the
    others keep their order, and the record is in no view afterwards. *)
Theorem delete_removes_exactly_one (e : PropertyListingEngine) (property_id : Z)
    (deleted_property : Property) :
  reachable e → id_map e !! property_id = Some deleted_property →
  ∃ e1 before after,
    delete_property e property_id = Ok (true, e1)
    ∧ list_all e = before ++ (deleted_property :: after)
    ∧ list_all e1 = before ++ after
    ∧ (deleted_property ∉ list_all e1)
    ∧ id_map e1 !! property_id = None
    ∧ ∀ k, deleted_property ∉ bucket_of e1 k.
Proof.
  intros Hr Hd. apply reachable_engine_ok in Hr.
  pose proof Hr as [Hv Hs Hb Hi Hpos Hc].
  destruct (delete_property_effect e property_id deleted_property Hs Hd)
    as (e1 & Hdel & Hall & Hbuckets & Hidmap & Hnext & Hs1).
  destruct (id_view_in_primary e Hv _ _ Hd) as [Hid Hin].
  destruct (list_elem_of_split _ _ Hin) as (before & after & Hsplit).
  assert (Hother : ∀ p, p ∈ before ++ after → id p ≠ property_id).
  { intros p Hp Hpid.
    assert (Hp' : p ∈ list_all e).
    { rewrite Hsplit. rewrite elem_of_app in *. rewrite elem_of_cons. tauto. }
    apply (primary_iff_id_view e Hv) in Hp'. rewrite Hpid, Hd in Hp'.
    injection Hp' as ->.
    pose proof (primary_once e Hv) as Hnd. rewrite Hsplit in Hnd.
    apply NoDup_app in Hnd as (_ & Hnd1 & Hnd2).
    apply NoDup_cons in Hnd2 as [Hnd2 _].
    apply elem_of_app in Hp as [Hp|Hp]; [|contradiction].
    apply (Hnd1 _ Hp). now left. }
  assert (Hgone : list_all e1 = before ++ after).
  { rewrite Hall, Hsplit. unfold keep_other. rewrite filter_app.
    rewrite (filter_cons_False (fun prop => id prop ≠ property_id)) by auto.
    rewrite <- filter_app. apply filter_all. apply list.Forall_forall. exact Hother. }
  exists e1, before, after. split; [exact Hdel|]. split; [exact Hsplit|].
  split; [exact Hgone|]. split; [|split].
  - rewrite Hgone. intros Hp. now apply (Hother _ Hp).
  - rewrite Hidmap. apply lookup_delete_eq.
  - intros k Hp.
    assert (Hp' : deleted_property ∈ keep_other property_id (bucket_of e k)).
    { rewrite Hbuckets in Hp. destruct (decide _); [exact Hp|].
      pose proof (only_own_bucket e Hv _ _ Hp). contradiction. }
    unfold keep_other in Hp'. apply list_elem_of_filter in Hp' as [Hne _]. auto.
Qed.

Lemma delete_removes_exactly_one_austin :
  (reachable austin_engine
   ∧ id_map austin_engine !! 1 = Some (mkProperty 1 "A" "Austin" 100000 "house"))
  ∧ ∃ e1 before after,
      delete_property austin_engine 1 = Ok (true, e1)
      ∧ list_all austin_engine
        = before ++ (mkProperty 1 "A" "Austin" 100000 "house" :: after)
      ∧ list_all e1 = before ++ after
      ∧ (mkProperty 1 "A" "Austin" 100000 "house" ∉ list_all e1)
      ∧ id_map e1 !! 1 = None
      ∧ ∀ k, mkProperty 1 "A" "Austin" 100000 "house" ∉ bucket_of e1 k.
Proof.
  assert (H : reachable austin_engine).
  { exists austin_calls, [], [IdValue 1; IdValue 2]. vm_compute. reflexivity. }
  assert (Hd : id_map austin_engine !! 1 = Some (mkProperty 1 "A" "Austin" 100000 "house"))
    by reflexivity.
  split; [split; [exact H|exact Hd]|].
  exact (delete_removes_exactly_one austin_engine 1 _ H Hd).
Defined.

(** ** The sorter on its own *)

(** X6.  Called on a range inside the list, quicksort sorts the records
    of the range and leaves the records before and after the range where
    they were. *)
Theorem quick_sort_sorts_range (pre seg post : list Property) :
  ∃ seg',
    _quick_sort_by_price (pre ++ seg ++ post)
      (py_len pre) (py_len pre + py_len seg - 1)
    = Ok (pre ++ seg' ++ post)
    ∧ Permutation seg seg' ∧ sorted_by_price seg'.
Proof.
  unfold _quick_sort_by_price.
  apply quick_sort_fuel_spec. unfold py_len. lia.
Qed.

Lemma py_get_past_the_end {A} (l : list A) (i : Z) :
  py_len l <= i → py_get l i = IndexError.
Proof.
  intros Hi. unfold py_get, py_norm_index.
  destruct (Z.ltb_spec i (py_len l)) as [|_]; [lia|].
  destruct (Z.ltb_spec i 0) as [|_]; [unfold py_len in *; lia|].
  now rewrite !andb_false_r.
Qed.

(** X7.  Called on a non-trivial range whose upper bound is past the end
    of the list, quicksort raises [IndexError] (on the first read of
    [items[high]]). *)
Theorem quick_sort_past_the_end (items : list Property) (low high : Z) :
  low < high → py_len items <= high →
  _quick_sort_by_price items low high = IndexError.
Proof.
  intros Hlt Hend. unfold _quick_sort_by_price.
  rewrite quick_sort_fuel_eq.
  destruct (Z.geb_spec low high) as [Hge|_]; [lia|].
  destruct (Z.to_nat (high - low)) as [|fuel] eqn:Hfuel; [lia|].
  unfold partition, py_swap.
  rewrite (py_get_past_the_end items high Hend).
  reflexivity.
Qed.

Lemma quick_sort_past_the_end_sample :
  (0 < 3 ∧ py_len sample_listings <= 3)
  ∧ _quick_sort_by_price sample_listings 0 3 = IndexError.
Proof.
  assert (H1 : 0 < 3) by lia.
  assert (H2 : py_len sample_listings <= 3) by (vm_compute; discriminate).
  split; [split; [exact H1|exact H2]|].
  exact (quick_sort_past_the_end sample_listings 0 3 H1 H2).
Defined.

(** X8.  The partitioning step on a range of at least two records: the
    pivot comes to rest with only records at most as expensive on its
    left and only dearer records on its right, the range keeps the same
    records, and the rest of the list is untouched. *)
Theorem partition_postcondition (pre seg post : list Property) :
  (2 <= length seg)%nat →
  ∃ small pivot large,
    partition (pre ++ seg ++ post) (py_len pre) (py_len pre + py_len seg - 1)
    = Ok (pre ++ small ++ pivot :: large ++ post, py_len pre + py_len small)
    ∧ Forall (fun x => price x <= price pivot) small
    ∧ Forall (fun x => price pivot < price x) large
    ∧ Permutation seg (small ++ pivot :: large).
Proof.
  intros Hlen.
  apply (partition_spec pre seg post); [reflexivity|reflexivity|].
  unfold py_len. lia.
Qed.

Lemma partition_postcondition_sample :
  (2 <= length sample_listings)%nat
  ∧ ∃ small pivot large,
      partition ([] ++ sample_listings ++ [])
        (py_len (@nil Property)) (py_len (@nil Property) + py_len sample_listings - 1)
      = Ok ([] ++ small ++ pivot :: large ++ [], py_len (@nil Property) + py_len small)
      ∧ Forall (fun x => price x <= price pivot) small
      ∧ Forall (fun x => price pivot < price x) large
      ∧ Permutation sample_listings (small ++ pivot :: large).
Proof.
  assert (H : (2 <= length sample_listings)%nat) by (vm_compute; lia).
  split; [exact H|].
  exact (partition_postcondition [] sample_listings [] H).
Defined.

(** X9.  The sort is not stable: of two records of equal price, sorted
    on their own, the second comes out first. *)
Theorem quick_sort_swaps_equal_pair (a b : Property) :
  price a = price b → _quick_sort_by_price [a; b] 0 1 = Ok [b; a].
Proof.
  intros Heq. unfold _quick_sort_by_price.
  destruct a as [ia ta la pa ya], b as [ib tb lb pb yb]. simpl in Heq. subst pb.
  cbv -[Z.leb]. simpl. rewrite Z.leb_refl. reflexivity.
Qed.

Lemma quick_sort_swaps_equal_pair_sample :
  price (mkProperty 2 "Villa" "Austin" 250 "house")
  = price (mkProperty 3 "Field" "Austin" 250 "plot")
  ∧ _quick_sort_by_price
      [mkProperty 2 "Villa" "Austin" 250 "house"; mkProperty 3 "Field" "Austin" 250 "plot"]
      0 1
    = Ok [mkProperty 3 "Field" "Austin" 250 "plot"; mkProperty 2 "Villa" "Austin" 250 "house"].
Proof.
  assert (H : price (mkProperty 2 "Villa" "Austin" 250 "house")
              = price (mkProperty 3 "Field" "Austin" 250 "plot")) by reflexivity.
  split; [exact H|].
  exact (quick_sort_swaps_equal_pair _ _ H).
Defined.

(** ** Sorting in descending order *)

Lemma sorted_by_price_rev (l : list Property) :
  sorted_by_price l → sorted_by_price_desc (rev l).
Proof.
  unfold sorted_by_price, sorted_by_price_desc.
  induction 1 as [|a l Hs IH Ha]; [constructor|].
  simpl. apply StronglySorted_app. split; [|split; [exact IH|repeat constructor]].
  intros x1 x2 Hx1 Hx2. apply list_elem_of_singleton in Hx2. subst x2.
  rewrite list.Forall_forall in Ha. apply Ha.
  apply list_elem_of_In. apply in_rev. now apply list_elem_of_In.
Qed.

(** X10.  Sorting with [ascending=False] returns a new list object that
    holds the records of the primary collection in descending order of
    price; the primary collection is as it was. *)
Theorem sort_descending_spec (e : PropertyListingEngine) :
  ∃ r e',
    sort_properties_by_price e false = Ok (r, e')
    ∧ (length (heap e) <= r)%nat
    ∧ Permutation (list_all e) (deref (heap e') r)
    ∧ sorted_by_price_desc (deref (heap e') r)
    ∧ (∀ r0, (r0 < length (heap e))%nat → heap e' !! r0 = heap e !! r0).
Proof.
  destruct (sort_properties_by_price_spec e) as (sorted & Hp & Hs & _ & Hdesc).
  rewrite Hdesc. destruct (decide (list_all e = [])) as [Hnil|Hne].
  - eexists _, _. split; [reflexivity|]. cbn [heap set_heap].
    rewrite deref_alloc_new, Hnil. split; [lia|]. split; [constructor|].
    split; [constructor|]. intros r0 Hr0. now apply lookup_app_l.
  - eexists _, _. split; [reflexivity|]. cbn [heap set_heap].
    assert (Hd : deref (heap e ++ [sorted; rev sorted]) (S (length (heap e))) = rev sorted).
    { change (heap e ++ [sorted; rev sorted]) with (heap e ++ [sorted] ++ [rev sorted]).
      rewrite app_assoc.
      replace (S (length (heap e))) with (length (heap e ++ [sorted]))
        by (rewrite length_app; simpl; lia).
      apply deref_alloc_new. }
    rewrite Hd. split; [lia|]. split; [|split].
    + rewrite Hp. apply Permutation_rev.
    + now apply sorted_by_price_rev.
    + intros r0 Hr0. now apply lookup_app_l.
Qed.

(** ** Queries do not change the catalogue *)

Lemma set_heap_same (e : PropertyListingEngine) : set_heap e (heap e ++ []) = e.
Proof. destruct e. unfold set_heap. cbn. now rewrite app_nil_r. Qed.

Lemma exec_query_grows (e : PropertyListingEngine) (c : call) :
  is_query c = true →
  ∃ r hs, exec e c = Ok (ListValue r, set_heap e (heap e ++ hs))
          ∧ (builds_result c = true → (length (heap e) <= r)%nat).
Proof.
  intros Hq. destruct c as [title location price property_type | property_id
                           | location | min_price max_price | ascending | ];
    try discriminate; cbn [exec builds_result].
  - rewrite search_by_location_eq.
    destruct (location_map e !! _hash_location location) as [b|].
    + exists b, []. rewrite set_heap_same. split; [reflexivity|discriminate].
    + eexists _, _. split; [reflexivity|discriminate].
  - destruct (search_by_price_range_spec e min_price max_price) as (sorted & _ & _ & Hs).
    rewrite Hs. cbn [mbind Res_bind]. eexists _, _. split; [reflexivity|]. lia.
  - destruct (sort_properties_by_price_spec e) as (sorted & _ & _ & Hasc & Hdesc).
    destruct ascending.
    + rewrite Hasc. cbn [mbind Res_bind]. eexists _, _. split; [reflexivity|]. lia.
    + rewrite Hdesc. destruct (decide (list_all e = [])); cbn [mbind Res_bind];
        eexists _, _; (split; [reflexivity|]); lia.
  - exists (get_all_properties e), []. rewrite set_heap_same.
    split; [reflexivity|discriminate].
Qed.

(** X11.  In a reachable state, a location search, a price range search,
    a sort in either direction and [get_all_properties] return a list and
    change nothing the engine holds: the primary collection, every
    bucket, the id view, the location map and the counter are as before,
    and so is every list object that existed before the call. *)
Theorem queries_change_nothing (e : PropertyListingEngine) (c : call) :
  reachable e → is_query c = true →
  ∃ r e1,
    exec e c = Ok (ListValue r, e1)
    ∧ list_all e1 = list_all e
    ∧ (∀ k, bucket_of e1 k = bucket_of e k)
    ∧ id_map e1 = id_map e ∧ location_map e1 = location_map e
    ∧ next_id e1 = next_id e ∧ properties e1 = properties e
    ∧ (∀ r0, (r0 < length (heap e))%nat → heap e1 !! r0 = heap e !! r0).
Proof.
  intros Hr Hq. apply reachable_engine_ok in Hr.
  pose proof (ok_store e Hr) as Hs.
  destruct (exec_query_grows e c Hq) as (r & hs & Hexec & _).
  exists r, (set_heap e (heap e ++ hs)). split; [exact Hexec|].
  split; [now apply heap_grow_list_all|].
  split; [intros k; now apply heap_grow_bucket_of|].
  repeat (split; [reflexivity|]).
  intros r0 Hr0. cbn [heap set_heap]. now apply lookup_app_l.
Qed.

Lemma queries_change_nothing_austin :
  (reachable austin_engine ∧ is_query (SearchByPriceRange 0 200000) = true)
  ∧ ∃ r e1,
      exec austin_engine (SearchByPriceRange 0 200000) = Ok (ListValue r, e1)
      ∧ list_all e1 = list_all austin_engine
      ∧ (∀ k, bucket_of e1 k = bucket_of austin_engine k)
      ∧ id_map e1 = id_map austin_engine
      ∧ location_map e1 = location_map austin_engine
      ∧ next_id e1 = next_id austin_engine
      ∧ properties e1 = properties austin_engine
      ∧ (∀ r0, (r0 < length (heap austin_engine))%nat →
               heap e1 !! r0 = heap austin_engine !! r0).
Proof.
  assert (H : reachable austin_engine).
  { exists austin_calls, [], [IdValue 1; IdValue 2]. vm_compute. reflexivity. }
  assert (Hq : is_query (SearchByPriceRange 0 200000) = true) by reflexivity.
  split; [split; [exact H|exact Hq]|].
  exact (queries_change_nothing austin_engine (SearchByPriceRange 0 200000) H Hq).
Defined.

(** ** Lists handed out to the caller *)

(** A call changes no list object other than the ones the engine holds,
    and the engine never takes hold of an existing object. *)
Lemma exec_frame (e : PropertyListingEngine) (c : call) (r : nat) :
  engine_ok e → (r < length (heap e))%nat → ¬ engine_owned e r →
  ∃ v e1, exec e c = Ok (v, e1) ∧ engine_ok e1
          ∧ heap e1 !! r = heap e !! r
          ∧ (r < length (heap e1))%nat ∧ ¬ engine_owned e1 r.
Proof.
  intros Hok Hr Hown. pose proof (ok_store e Hok) as Hs.
  assert (Hp : r ≠ properties e) by (intros ->; apply Hown; now left).
  assert (Hb : ∀ k, location_map e !! k ≠ Some r)
    by (intros k Hk; apply Hown; right; eauto).
  destruct (is_query c) eqn:Hq.
  - destruct (exec_query_grows e c Hq) as (r' & hs & Hexec & _).
    eexists _, _. split; [exact Hexec|].
    split; [now apply heap_grow_engine_ok|].
    cbn [heap set_heap]. split; [now apply lookup_app_l|].
    split; [rewrite length_app; lia|exact Hown].
  - destruct c as [title location price property_type | property_id | | | | ];
      try discriminate; cbn [exec].
    + destruct (add_engine_ok e title location price property_type Hok)
        as (e1 & Hadd & Hok1).
      rewrite Hadd. cbn [mbind Res_bind]. eexists _, e1. split; [reflexivity|].
      split; [exact Hok1|].
      pose proof (add_property_eq e title location price property_type) as Heq.
      cbv zeta in Heq. rewrite Hadd in Heq. injection Heq as ->.
      destruct (location_map e !! _hash_location location) as [b|] eqn:Hk;
        cbn [heap properties location_map].
      * unfold heap_append.
        rewrite !list_lookup_alter_ne by (try exact (not_eq_sym Hp); intros ->; now apply (Hb _ Hk)).
        split; [reflexivity|]. rewrite !length_alter. split; [exact Hr|].
        intros [Ho|[k Ho]]; cbn [properties location_map] in Ho; [auto|now apply (Hb k)].
      * unfold heap_append. rewrite lookup_app_l by (now rewrite length_alter).
        rewrite list_lookup_alter_ne by exact (not_eq_sym Hp).
        split; [reflexivity|]. rewrite length_app, length_alter. split; [lia|].
        intros [Ho|[k Ho]]; cbn [properties location_map] in Ho; [auto|].
        destruct (decide (k = _hash_location location)) as [->|Hne].
        -- rewrite lookup_insert_eq in Ho. injection Ho as Ho. lia.
        -- rewrite lookup_insert_ne in Ho by auto. now apply (Hb k).
    + destruct (id_map e !! property_id) as [d|] eqn:Hd.
      * destruct (delete_engine_ok e property_id Hok) as (found & e1 & Hdel & Hok1).
        rewrite Hdel. cbn [mbind Res_bind]. eexists _, e1. split; [reflexivity|].
        split; [exact Hok1|].
        rewrite (delete_property_present e property_id d Hd) in Hdel. cbv zeta in Hdel.
        injection Hdel as _ <-.
        destruct (location_map e !! _hash_location (location d)) as [b|] eqn:Hk;
          cbn [heap properties location_map].
        -- split; [now apply lookup_app_l|]. rewrite length_app. split; [lia|].
           intros [Ho|[k Ho]]; cbn [properties location_map] in Ho; [lia|].
           destruct (decide (k = _hash_location (location d))) as [->|Hne].
           ++ rewrite lookup_insert_eq in Ho. injection Ho as Ho. lia.
           ++ rewrite lookup_insert_ne in Ho by auto. now apply (Hb k).
        -- split; [now apply lookup_app_l|]. rewrite length_app. split; [lia|].
           intros [Ho|[k Ho]]; cbn [properties location_map] in Ho; [lia|].
           now apply (Hb k).
      * rewrite (delete_property_absent e property_id Hd). cbn [mbind Res_bind].
        eexists _, e. auto.
Qed.

Lemma session_frame (calls : list call) (r : nat) :
  ∀ e, engine_ok e → (r < length (heap e))%nat → ¬ engine_owned e r →
       ∃ vs e', session calls e = Ok (vs, e') ∧ heap e' !! r = heap e !! r.
Proof.
  induction calls as [|c calls IH]; intros e Hok Hr Hown.
  - exists [], e. auto.
  - cbn [session].
    destruct (exec_frame e c r Hok Hr Hown) as (v & e1 & Hexec & Hok1 & Hsame & Hr1 & Hown1).
    rewrite Hexec. cbn [mbind Res_bind].
    destruct (IH e1 Hok1 Hr1 Hown1) as (vs & e' & Hs & Hsame').
    rewrite Hs. cbn [mbind Res_bind]. eexists _, e'. split; [reflexivity|].
    now rewrite Hsame'.
Qed.

(** X12.  The list returned by a sort or by a price range search is the
    caller's own: no later sequence of calls on the engine, adds and
    deletes included, changes its contents. *)
Theorem result_lists_are_snapshots (e : PropertyListingEngine) (c : call)
    (calls : list call) :
  reachable e → builds_result c = true →
  ∃ r e1 vs e2,
    exec e c = Ok (ListValue r, e1)
    ∧ session calls e1 = Ok (vs, e2)
    ∧ deref (heap e2) r = deref (heap e1) r.
Proof.
  intros Hr Hb. apply reachable_engine_ok in Hr.
  assert (Hq : is_query c = true) by (destruct c; try discriminate; reflexivity).
  destruct (exec_query_grows e c Hq) as (r & hs & Hexec & Hnew).
  specialize (Hnew Hb).
  pose proof (heap_grow_engine_ok e hs Hr) as Hok1.
  set (e1 := set_heap e (heap e ++ hs)) in *.
  destruct (Nat.lt_ge_cases r (length (heap e1))) as [Hlt|Hge].
  - assert (Hown : ¬ engine_owned e1 r).
    { intros [Ho|[k Ho]]; cbn [e1 properties location_map set_heap] in Ho.
      - pose proof (properties_allocated e (ok_store e Hr)). lia.
      - destruct (buckets_allocated e (ok_store e Hr) k r Ho). lia. }
    destruct (session_frame calls r e1 Hok1 Hlt Hown) as (vs & e2 & Hs & Hsame).
    exists r, e1, vs, e2. split; [exact Hexec|]. split; [exact Hs|].
    unfold deref. now rewrite Hsame.
  - (* not the case: the reference returned is allocated *)
    exfalso. clear Hok1. subst e1. cbn [heap set_heap] in Hge.
    destruct c as [| | |min_price max_price|ascending|]; try discriminate;
      cbn [exec] in Hexec.
    + destruct (search_by_price_range_spec e min_price max_price) as (sorted & _ & _ & Hs).
      rewrite Hs in Hexec. cbn [mbind Res_bind] in Hexec.
      injection Hexec as <- Hh.
      rewrite <- Hh, length_app in Hge. simpl in Hge. lia.
    + destruct (sort_properties_by_price_spec e) as (sorted & _ & _ & Hasc & Hdesc).
      destruct ascending.
      * rewrite Hasc in Hexec. cbn [mbind Res_bind] in Hexec.
        injection Hexec as <- Hh.
        rewrite <- Hh, length_app in Hge. simpl in Hge. lia.
      * rewrite Hdesc in Hexec. destruct (decide (list_all e = []));
          cbn [mbind Res_bind] in Hexec;
          injection Hexec as <- Hh;
          rewrite <- Hh, length_app in Hge; simpl in Hge; lia.
Qed.

Lemma result_lists_are_snapshots_austin :
  (reachable austin_engine ∧ builds_result (SortPropertiesByPrice false) = true)
  ∧ ∃ r e1 vs e2,
      exec austin_engine (SortPropertiesByPrice false) = Ok (ListValue r, e1)
      ∧ session [DeleteProperty 2; AddProperty "C" "Dallas" 90000 "plot"] e1 = Ok (vs, e2)
      ∧ deref (heap e2) r = deref (heap e1) r.
Proof.
  assert (H : reachable austin_engine).
  { exists austin_calls, [], [IdValue 1; IdValue 2]. vm_compute. reflexivity. }
  assert (Hb : builds_result (SortPropertiesByPrice false) = true) by reflexivity.
  split; [split; [exact H|exact Hb]|].
  exact (result_lists_are_snapshots austin_engine (SortPropertiesByPrice false)
           [DeleteProperty 2; AddProperty "C" "Dallas" 90000 "plot"] H Hb).
Defined.

Lemma bucket_of_Some (e : PropertyListingEngine) (k : Z) (p : Property) :
  p ∈ bucket_of e k → ∃ b, location_map e !! k = Some b ∧ bucket_of e k = deref (heap e) b.
Proof.
  unfold bucket_of. destruct (location_map e !! k) as [b|]; [eauto|].
  intros H. inversion H.
Qed.

(** X13.  An add appends to the list objects the engine already holds:
    the primary list is the same object as before the call and, seen
    through a reference obtained earlier from [get_all_properties], it
    has the new record at its end; likewise the bucket of the location,
    if it existed, seen through a reference obtained from
    [search_by_location]. *)
Theorem add_is_seen_through_aliases (e : PropertyListingEngine)
    (title location : string) (price : Z) (property_type : string) :
  reachable e →
  let new_property := mkProperty (next_id e) title location price property_type in
  ∃ e1,
    add_property e title location price property_type = Ok (next_id e, e1)
    ∧ get_all_properties e1 = get_all_properties e
    ∧ deref (heap e1) (get_all_properties e) = list_all e ++ [new_property]
    ∧ ∀ b, location_map e !! _hash_location location = Some b →
           fst (search_by_location e1 location) = b
           ∧ deref (heap e1) b = deref (heap e) b ++ [new_property].
Proof.
  intros Hr new_property. apply reachable_engine_ok in Hr.
  pose proof (ok_store e Hr) as Hs.
  destruct (add_property_effect e title location price property_type Hs)
    as (e1 & Hadd & Hall & Hbuckets & _).
  fold new_property in Hall, Hbuckets.
  pose proof (add_property_eq e title location price property_type) as Heq.
  cbv zeta in Heq. rewrite Hadd in Heq. injection Heq as Heq.
  assert (Hprops : properties e1 = properties e).
  { rewrite Heq. now destruct (location_map e !! _hash_location location). }
  exists e1. split; [exact Hadd|]. split; [exact Hprops|]. split.
  - unfold get_all_properties. rewrite <- Hprops. exact Hall.
  - intros b Hb.
    assert (Hmap : location_map e1 !! _hash_location location = Some b).
    { rewrite Heq, Hb. exact Hb. }
    split.
    + rewrite search_by_location_eq, Hmap. reflexivity.
    + specialize (Hbuckets (_hash_location location)).
      rewrite decide_True in Hbuckets by reflexivity.
      unfold bucket_of in Hbuckets. now rewrite Hmap, Hb in Hbuckets.
Qed.

Lemma add_is_seen_through_aliases_austin :
  reachable austin_engine
  ∧ ∃ e1,
      add_property austin_engine "C" "AUSTIN" 90000 "plot"
      = Ok (next_id austin_engine, e1)
      ∧ get_all_properties e1 = get_all_properties austin_engine
      ∧ deref (heap e1) (get_all_properties austin_engine)
        = list_all austin_engine
          ++ [mkProperty (next_id austin_engine) "C" "AUSTIN" 90000 "plot"]
      ∧ ∀ b, location_map austin_engine !! _hash_location "AUSTIN" = Some b →
             fst (search_by_location e1 "AUSTIN") = b
             ∧ deref (heap e1) b
               = deref (heap austin_engine) b
                 ++ [mkProperty (next_id austin_engine) "C" "AUSTIN" 90000 "plot"].
Proof.
  assert (H : reachable austin_engine).
  { exists austin_calls, [], [IdValue 1; IdValue 2]. vm_compute. reflexivity. }
  split; [exact H|].
  exact (add_is_seen_through_aliases austin_engine "C" "AUSTIN" 90000 "plot" H).
Defined.

(** X14.  A successful delete changes no existing list object: it builds
    a new primary list and a new bucket and makes the engine hold those.
    A reference obtained earlier from [get_all_properties] or from
    [search_by_location] therefore still shows the deleted record. *)
Theorem delete_leaves_aliases_stale (e : PropertyListingEngine) (property_id : Z)
    (deleted_property : Property) :
  reachable e → id_map e !! property_id = Some deleted_property →
  ∃ e1 b,
    delete_property e property_id = Ok (true, e1)
    ∧ (∀ r0, (r0 < length (heap e))%nat → heap e1 !! r0 = heap e !! r0)
    ∧ get_all_properties e1 ≠ get_all_properties e
    ∧ deleted_property ∈ deref (heap e1) (get_all_properties e)
    ∧ fst (search_by_location e (location deleted_property)) = b
    ∧ fst (search_by_location e1 (location deleted_property)) ≠ b
    ∧ deleted_property ∈ deref (heap e1) b.
Proof.
  intros Hr Hd. apply reachable_engine_ok in Hr.
  pose proof (ok_store e Hr) as Hs. pose proof (ok_views e Hr) as Hv.
  destruct (id_view_in_primary e Hv _ _ Hd) as [Hid Hin].
  pose proof (proj1 (primary_iff_own_bucket e Hv deleted_property) Hin) as Hinb.
  destruct (bucket_of_Some e _ _ Hinb) as (b & Hb & Hbucket).
  rewrite Hbucket in Hinb.
  destruct (buckets_allocated e Hs _ _ Hb) as [Hblt _].
  pose proof (properties_allocated e Hs) as Hplt.
  rewrite (delete_property_present e property_id deleted_property Hd). cbv zeta.
  rewrite Hb. eexists _, b. split; [reflexivity|].
  cbn [heap]. unfold get_all_properties. cbn [properties].
  assert (Hold : ∀ r0, (r0 < length (heap e))%nat →
                       (heap e ++ [keep_other property_id (deref (heap e) (properties e));
                                   keep_other property_id
                                     (deref (heap e ++ [keep_other property_id
                                                          (deref (heap e) (properties e))]) b)])
                       !! r0 = heap e !! r0)
    by (intros r0 Hr0; now apply lookup_app_l).
  split; [exact Hold|]. split; [lia|]. split; [|split; [|split]].
  - unfold deref at 1. now rewrite Hold.
  - rewrite search_by_location_eq, Hb. reflexivity.
  - rewrite search_by_location_eq. cbn [location_map].
    rewrite lookup_insert_eq. cbn [fst]. lia.
  - unfold deref at 1. now rewrite Hold.
Qed.

Lemma delete_leaves_aliases_stale_austin :
  (reachable austin_engine
   ∧ id_map austin_engine !! 1 = Some (mkProperty 1 "A" "Austin" 100000 "house"))
  ∧ ∃ e1 b,
      delete_property austin_engine 1 = Ok (true, e1)
      ∧ (∀ r0, (r0 < length (heap austin_engine))%nat →
               heap e1 !! r0 = heap austin_engine !! r0)
      ∧ get_all_properties e1 ≠ get_all_properties austin_engine
      ∧ mkProperty 1 "A" "Austin" 100000 "house"
        ∈ deref (heap e1) (get_all_properties austin_engine)
      ∧ fst (search_by_location austin_engine
               (location (mkProperty 1 "A" "Austin" 100000 "house"))) = b
      ∧ fst (search_by_location e1
               (location (mkProperty 1 "A" "Austin" 100000 "house"))) ≠ b
      ∧ mkProperty 1 "A" "Austin" 100000 "house" ∈ deref (heap e1) b.
Proof.
  assert (H : reachable austin_engine).
  { exists austin_calls, [], [IdValue 1; IdValue 2]. vm_compute. reflexivity. }
  assert (Hd : id_map austin_engine !! 1 = Some (mkProperty 1 "A" "Austin" 100000 "house"))
    by reflexivity.
  split; [split; [exact H|exact Hd]|].
  exact (delete_leaves_aliases_stale austin_engine 1 _ H Hd).
Defined.

(** X15.  In a reachable state, the record an add creates is found by
    all three lookups at once: it is the last record of the primary
    collection, the id view maps the returned id to it, and it is the
    last record of the list a search for its location returns. *)
Theorem added_record_is_found (e : PropertyListingEngine)
    (title location : string) (price : Z) (property_type : string) :
  reachable e →
  let new_property := mkProperty (next_id e) title location price property_type in
  ∃ e1 r e2,
    add_property e title location price property_type = Ok (next_id e, e1)
    ∧ last (list_all e1) = Some new_property
    ∧ id_map e1 !! next_id e = Some new_property
    ∧ search_by_location e1 location = (r, e2)
    ∧ last (deref (heap e2) r) = Some new_property.
Proof.
  intros Hr new_property. apply reachable_engine_ok in Hr.
  pose proof (ok_store e Hr) as Hs.
  destruct (add_property_effect e title location price property_type Hs)
    as (e1 & Hadd & Hall & Hbuckets & Hidmap & _).
  fold new_property in Hall, Hbuckets, Hidmap.
  specialize (Hbuckets (_hash_location location)).
  rewrite decide_True in Hbuckets by reflexivity.
  assert (Hin : new_property ∈ bucket_of e1 (_hash_location location)).
  { rewrite Hbuckets, elem_of_app, list_elem_of_singleton. now right. }
  destruct (bucket_of_Some e1 _ _ Hin) as (b & Hb & Hbucket).
  exists e1, b, e1. split; [exact Hadd|]. split; [|split; [|split]].
  - rewrite Hall. apply last_snoc.
  - rewrite Hidmap. apply lookup_insert_eq.
  - rewrite search_by_location_eq, Hb. reflexivity.
  - rewrite <- Hbucket, Hbuckets. apply last_snoc.
Qed.

Lemma added_record_is_found_austin :
  reachable austin_engine
  ∧ ∃ e1 r e2,
      add_property austin_engine "C" "Dallas" 90000 "plot"
      = Ok (next_id austin_engine, e1)
      ∧ last (list_all e1)
        = Some (mkProperty (next_id austin_engine) "C" "Dallas" 90000 "plot")
      ∧ id_map e1 !! next_id austin_engine
        = Some (mkProperty (next_id austin_engine) "C" "Dallas" 90000 "plot")
      ∧ search_by_location e1 "Dallas" = (r, e2)
      ∧ last (deref (heap e2) r)
        = Some (mkProperty (next_id austin_engine) "C" "Dallas" 90000 "plot").
Proof.
  assert (H : reachable austin_engine).
  { exists austin_calls, [], [IdValue 1; IdValue 2]. vm_compute. reflexivity. }
  split; [exact H|].
  exact (added_record_is_found austin_engine "C" "Dallas" 90000 "plot" H).
Defined.

(** X16.  In a reachable state, delete reports true exactly when some
    live record has the given id. *)
Theorem delete_found_iff_live (e : PropertyListingEngine) (property_id : Z) :
  reachable e →
  ∃ found e1,
    delete_property e property_id = Ok (found, e1)
    ∧ (found = true ↔ ∃ p, p ∈ list_all e ∧ id p = property_id).
Proof.
  intros Hr. apply reachable_engine_ok in Hr. pose proof (ok_views e Hr) as Hv.
  destruct (id_map e !! property_id) as [d|] eqn:Hd.
  - rewrite (delete_property_present e property_id d Hd). cbv zeta.
    eexists _, _. split; [reflexivity|]. split; [|reflexivity].
    intros _. exists d. destruct (id_view_in_primary e Hv _ _ Hd). auto.
  - rewrite (delete_property_absent e property_id Hd).
    eexists _, _. split; [reflexivity|]. split; [discriminate|].
    intros (p & Hp & Hid). apply (primary_iff_id_view e Hv) in Hp.
    rewrite Hid, Hd in Hp. discriminate.
Qed.

Lemma delete_found_iff_live_austin :
  reachable austin_engine
  ∧ ∃ found e1,
      delete_property austin_engine 2 = Ok (found, e1)
      ∧ (found = true ↔ ∃ p, p ∈ list_all austin_engine ∧ id p = 2).
Proof.
  assert (H : reachable austin_engine).
  { exists austin_calls, [], [IdValue 1; IdValue 2]. vm_compute. reflexivity. }
  split; [exact H|].
  exact (delete_found_iff_live austin_engine 2 H).
Defined.

(** ** More on the location key *)











(** ** Ids over a whole session *)

Lemma exec_next_id (e : PropertyListingEngine) (c : call) :
  ∃ v e1, exec e c = Ok (v, e1)
          ∧ match c with
            | AddProperty _ _ _ _ => v = IdValue (next_id e) ∧ next_id e1 = next_id e + 1
            | _ => (∀ i, v ≠ IdValue i) ∧ next_id e1 = next_id e
            end.
Proof.
  destruct (is_query c) eqn:Hq.
  - destruct (exec_query_grows e c Hq) as (r & hs & Hexec & _).
    eexists _, _. split; [exact Hexec|].
    destruct c; try discriminate; (split; [discriminate|reflexivity]).
  - destruct c as [title location price property_type | property_id | | | | ];
      try discriminate; cbn [exec].
    + destruct (add_property_next_id e title location price property_type)
        as (e1 & Hadd & Hnext & _).
      rewrite Hadd. cbn [mbind Res_bind]. eexists _, _. split; [reflexivity|]. auto.
    + destruct (delete_property_next_id e property_id) as (found & e1 & Hdel & Hnext).
      rewrite Hdel. cbn [mbind Res_bind]. eexists _, _. split; [reflexivity|].
      split; [discriminate|exact Hnext].
Qed.

Lemma session_returned_ids (calls : list call) :
  ∀ e, ∃ vs e',
    session calls e = Ok (vs, e')
    ∧ next_id e <= next_id e'
    ∧ returned_ids vs = py_range (next_id e) (next_id e').
Proof.
  induction calls as [|c calls IH]; intros e.
  - exists [], e. simpl. rewrite py_range_nil by lia. repeat split; auto. lia.
  - cbn [session]. destruct (exec_next_id e c) as (v & e1 & Hexec & Hc).
    rewrite Hexec. cbn [mbind Res_bind].
    destruct (IH e1) as (vs & e' & Hs & Hle & Hids).
    rewrite Hs. cbn [mbind Res_bind]. eexists _, _. split; [reflexivity|].
    destruct c; destruct Hc as [Hv Hnext];
      try (split; [lia|]; destruct v as [i| |];
           [now destruct (Hv i)|cbn [returned_ids]; now rewrite Hids, Hnext
           |cbn [returned_ids]; now rewrite Hids, Hnext]).
    subst v. split; [lia|]. cbn [returned_ids]. rewrite Hids, Hnext.
    symmetry. apply py_range_cons. lia.
Qed.

(** X19.  In any session on a new engine, queries and deletes
    interleaved as one likes, the adds return 1, 2, 3, ... in order: the
    ids returned are exactly the integers from 1 up to the counter. *)
Theorem session_ids_count_from_one (calls : list call) (h : Heap) :
  ∃ vs e,
    session calls (__init__ h) = Ok (vs, e)
    ∧ returned_ids vs = py_range 1 (next_id e)
    ∧ ∀ k i, returned_ids vs !! k = Some i → i = Z.of_nat k + 1.
Proof.
  destruct (session_returned_ids calls (__init__ h)) as (vs & e & Hs & Hle & Hids).
  change (next_id (__init__ h)) with 1 in *.
  exists vs, e. split; [exact Hs|]. split; [exact Hids|].
  intros k i Hk. rewrite Hids in Hk. unfold py_range in Hk.
  rewrite list_lookup_fmap in Hk.
  destruct (seq 0 (Z.to_nat (next_id e - 1)) !! k) as [j|] eqn:Hj; [|discriminate].
  apply lookup_seq in Hj as [-> _]. cbn in Hk. injection Hk as <-. lia.
Qed.
